(** * retail/notebooks/utils.py: [evaluate] and [plot_feature_importances]

    A shallow embedding of the two notebook helpers and of the pandas, NumPy
    and scikit-learn calls they are made of.

    - Column values are scalars of a dtype [F] ([Scalar]).  The dtype of
      the code is [float], IEEE binary64 as NumPy computes it, and what is
      stated of the numbers in a column is stated of it.  [Q] is a second
      instance for what holds of every dtype: the order of the rows, the
      store, the figures.
    - [Series.sum()] adds in NumPy's pairwise order, [np.cumsum] from the
      left; both skip NaN as pandas does.
    - A dataframe is a Python object: the store maps a location to a frame,
      [sort_values] and [reset_index] allocate a new frame, [df[c] = v]
      updates the frame in place.
    - Figures and printed lines are recorded, in order, in the world, each
      with the data it shows; font size, axis labels and the inverted axis
      of a figure are not.
    - A raised exception ends the call; what was drawn, printed or stored
      before it stays. *)

From stdpp Require Import base option list sorting strings.
From Stdlib Require Import ZArith QArith Qfield Floats Lia.

Close Scope Q_scope.
Open Scope nat_scope.

(** ** Scalars *)

(** The operations of a float column that the two helpers reach. *)
Class Scalar (F : Type) := {
  f_zero : F;
  f_add : F → F → F;
  f_div : F → F → F;
  (** [x > y] *)
  f_gtb : F → F → bool;
  (** [pd.isna] *)
  f_isnan : F → bool;
  (** [bool(x)], the test of [if x:] *)
  f_truthy : F → bool
}.

(** binary64.  [bool(x)] is [x != 0.0]: false on [0.0] and [-0.0], true on
    NaN. *)
#[export] Instance float_scalar : Scalar float := {|
  f_zero := 0%float;
  f_add := PrimFloat.add;
  f_div := PrimFloat.div;
  f_gtb x y := PrimFloat.ltb y x;
  f_isnan := PrimFloat.is_nan;
  f_truthy x := negb (PrimFloat.eqb x 0%float)
|}.

(** Exact rationals, a second instance for the statements that hold of every
    dtype.  It is not the arithmetic of the code: nothing is rounded, there
    is no NaN and no infinity, and [x / 0] is [0].  What is stated of the
    numbers in the two added columns is stated of binary64. *)
#[export] Instance Q_scalar : Scalar Q := {|
  f_zero := 0%Q;
  f_add := Qplus;
  f_div := Qdiv;
  f_gtb x y := negb (Qle_bool x y);
  f_isnan _ := false;
  f_truthy x := negb (Qeq_bool x 0%Q)
|}.


(** ** Binary64 values *)

(** A value that is not NaN and not negative: a zero of either sign, a
    positive number or the positive infinity. *)
Definition SF_nonneg (x : spec_float) : bool :=
  match x with
  | S754_zero _ => true
  | S754_infinity s | S754_finite s _ _ => negb s
  | S754_nan => false
  end.

(** [not (np.isnan(x) or x < 0)] *)
Definition not_negative (x : float) : bool :=
  negb (PrimFloat.is_nan x) && negb (PrimFloat.ltb x 0).

(** Mantissa [m] at exponent [e], counted in units of 2^-1074, the least
    positive binary64 number. *)
Definition weight (m e : Z) : Z := (m * 2 ^ (e + 1074))%Z.




(** What the order of a dtype has to satisfy for a sort to mean anything:
    [>] is asymmetric, NaN is greater than nothing, and "not greater" passes
    through a value that is not NaN. *)
Class ScalarOrder (F : Type) `{Scalar F} := {
  f_gtb_asym : ∀ x y : F, f_gtb x y = true → f_gtb y x = false;
  f_gtb_nan : ∀ x y : F, f_isnan x = true → f_gtb x y = false;
  f_gtb_trans : ∀ x y z : F,
    f_isnan y = false →
    f_gtb y x = false → f_gtb z y = false → f_gtb z x = false
}.

(** [a] then [b] is in descending order: [b] is not greater than [a]. *)
Definition descending {F} `{Scalar F} (a b : F) : Prop := f_gtb b a = false.

(** ** Dataframes *)

(** One row of an importance table: its index label, the two columns the
    docstring asks for, and the two columns the function adds ([None] while
    the column does not exist). *)
Record Row (F : Type) := mkRow {
  label : Z;
  feature : string;
  importance : F;
  importance_normalized : option F;
  cumulative_importance : option F
}.
Arguments mkRow {F} _ _ _ _ _.
Arguments label {F} _.
Arguments feature {F} _.
Arguments importance {F} _.
Arguments importance_normalized {F} _.
Arguments cumulative_importance {F} _.

Abbreviation DataFrame F := (list (Row F)).

(** ** The world: object store, figures and printed lines *)

Inductive exn :=
  | KeyError (column : string)
  | ValueError (msg : string)
  (** pandas refuses to plot a frame without rows with a [TypeError] *)
  | TypeError (msg : string)
  (** a location outside the store; Python has no such reference *)
  | Dangling.

Inductive event (F : Type) :=
  (** [df.loc[:n, :].plot.barh(y = 'importance_normalized', x = 'feature')]
      with its title [Top n Most Important Features] *)
  | BarPlot (n : nat) (bars : list (string * F))
  (** [plt.plot(list(range(len(df))), df['cumulative_importance'], 'b-')] *)
  | LinePlot (xs : list nat) (ys : list F)
  (** [plt.vlines(x, ymin = 0, ymax = 1.05)] *)
  | VLines (x : nat)
  (** [plt.show()] *)
  | Show
  (** [print('{} features required for {:.0f}% of cumulative importance.')]
      with the two values it formats: the count, and the threshold that is
      shown times 100 *)
  | PrintRequired (k : nat) (threshold : F)
  (** [print('5-fold CV MAE: ...')] with the scores whose mean and standard
      deviation it shows *)
  | PrintCV (cv_score : list F)
  (** [print('Test MAE: ...')] *)
  | PrintMAE (mae_score : F).
Arguments BarPlot {F} _ _.
Arguments LinePlot {F} _ _.
Arguments VLines {F} _.
Arguments Show {F}.
Arguments PrintRequired {F} _ _.
Arguments PrintCV {F} _.
Arguments PrintMAE {F} _.

Record world (F : Type) := mkWorld {
  heap : list (DataFrame F);
  output : list (event F)
}.
Arguments mkWorld {F} _ _.
Arguments heap {F} _.
Arguments output {F} _.

Definition loc := nat.

(** State and exceptions. *)
Definition M (F A : Type) : Type := world F → (exn + A) * world F.

Definition ret {F A} (a : A) : M F A := λ w, (inr a, w).

Definition raise {F A} (e : exn) : M F A := λ w, (inl e, w).

Definition bind {F A B} (m : M F A) (k : A → M F B) : M F B :=
  λ w, match m w with
       | (inr a, w') => k a w'
       | (inl e, w') => (inl e, w')
       end.

Notation "x <- m ;; k" := (bind m (λ x, k))
  (at level 20, m at level 99, k at level 200, only parsing).
Notation "m ;;; k" := (bind m (λ _, k))
  (at level 100, k at level 200, right associativity, only parsing).

Definition lift {F A} (r : exn + A) : M F A := λ w, (r, w).

Definition load {F} (l : loc) : M F (DataFrame F) :=
  λ w, match heap w !! l with
       | Some df => (inr df, w)
       | None => (inl Dangling, w)
       end.

Definition alloc {F} (df : DataFrame F) : M F loc :=
  λ w, (inr (length (heap w)), mkWorld (heap w ++ [df]) (output w)).

Definition store {F} (l : loc) (df : DataFrame F) : M F unit :=
  λ w, (inr tt, mkWorld (<[l := df]> (heap w)) (output w)).

Definition emit {F} (e : event F) : M F unit :=
  λ w, (inr tt, mkWorld (heap w) (output w ++ [e])).

(** ** pandas and NumPy on a column *)

Section Columns.
Context {F : Type} `{Scalar F}.

(** pandas skips NaN ([skipna = True]) by putting zero in its place. *)
Definition nan_to_zero (x : F) : F := if f_isnan x then f_zero else x.

(** [Series.sum()] hands the values, NaN replaced, to [ndarray.sum()],
    which adds a contiguous array in NumPy's pairwise order.  Up to 128
    values: fewer than eight are added to zero one after the other; from
    eight on, eight accumulators start as the first eight values, take the
    following values eight at a time, are added as a tree, and the values
    left over are added to the result one after the other. *)
Definition lanes : Type := F * F * F * F * F * F * F * F.

Fixpoint add_blocks (r : lanes) (a : list F) : lanes * list F :=
  match a with
  | a0 :: a1 :: a2 :: a3 :: a4 :: a5 :: a6 :: a7 :: a' =>
      let '(r0, r1, r2, r3, r4, r5, r6, r7) := r in
      add_blocks (f_add r0 a0, f_add r1 a1, f_add r2 a2, f_add r3 a3,
                  f_add r4 a4, f_add r5 a5, f_add r6 a6, f_add r7 a7) a'
  | _ => (r, a)
  end.

Definition lanes_all (P : F → Prop) (r : lanes) : Prop :=
  let '(r0, r1, r2, r3, r4, r5, r6, r7) := r in
  P r0 ∧ P r1 ∧ P r2 ∧ P r3 ∧ P r4 ∧ P r5 ∧ P r6 ∧ P r7.

Definition sum_lanes (r : lanes) : F :=
  let '(r0, r1, r2, r3, r4, r5, r6, r7) := r in
  f_add (f_add (f_add r0 r1) (f_add r2 r3))
        (f_add (f_add r4 r5) (f_add r6 r7)).

Definition sum_block (a : list F) : F :=
  match a with
  | a0 :: a1 :: a2 :: a3 :: a4 :: a5 :: a6 :: a7 :: a' =>
      let '(r, rest) := add_blocks (a0, a1, a2, a3, a4, a5, a6, a7) a' in
      foldl f_add (sum_lanes r) rest
  | _ => foldl f_add f_zero a
  end.

(** More than 128 values are split in two, the first part of a length that
    is a multiple of eight, and the sums of the parts are added.  [depth]
    bounds the splits; a part is shorter than the whole, so the length of
    the array is depth enough ([pairwise_sum_depth]). *)
Fixpoint pairwise_sum (depth : nat) (a : list F) : F :=
  match depth with
  | S depth' =>
      if 128 <? length a then
        let n2 := length a / 2 - (length a / 2) mod 8 in
        f_add (pairwise_sum depth' (take n2 a))
              (pairwise_sum depth' (drop n2 a))
      else sum_block a
  | 0 => sum_block a
  end.

(** The reduction starts from the identity of the addition and adds the
    pairwise sum of the whole array to it. *)
Definition ndarray_sum (a : list F) : F :=
  f_add f_zero (pairwise_sum (length a) a).

(** [Series.sum()], with [skipna = True] and [min_count = 0]. *)
Definition series_sum (col : list F) : F :=
  ndarray_sum (nan_to_zero <$> col).

(** [Series / scalar] *)
Definition series_div (col : list F) (d : F) : list F :=
  (λ x, f_div x d) <$> col.

Fixpoint cumsum_from (acc : F) (col : list F) : list F :=
  match col with
  | [] => []
  | x :: col' => f_add acc x :: cumsum_from (f_add acc x) col'
  end.

(** [ndarray.cumsum()]: [out[0] = a[0]], [out[i] = out[i-1] + a[i]]. *)
Definition ndarray_cumsum (col : list F) : list F :=
  match col with
  | [] => []
  | x :: col' => x :: cumsum_from x col'
  end.

(** The sum of a run of values, added one after the other from the left. *)
Definition sum_from_left (col : list F) : F :=
  match col with
  | [] => f_zero
  | x :: col' => foldl f_add x col'
  end.

(** [np.cumsum(series)] is [series.cumsum()]: NaN is zero to the running
    sum and stays NaN in its own place. *)
Definition np_cumsum (col : list F) : list F :=
  zip_with (λ x c, if f_isnan x then x else c)
           col (ndarray_cumsum (nan_to_zero <$> col)).

Fixpoint where_from (i : nat) (col : list F) (t : F) : list nat :=
  match col with
  | [] => []
  | c :: col' =>
      if f_gtb c t then i :: where_from (S i) col' t
      else where_from (S i) col' t
  end.

(** [np.where(series > t)]: the positions where the comparison is true,
    ascending. *)
Definition np_where_gt (col : list F) (t : F) : list nat :=
  where_from 0 col t.

(** [np.min]: the least element; no identity, so an empty input raises. *)
Definition np_min (l : list nat) : exn + nat :=
  match l with
  | [] => inl (ValueError
      "zero-size array to reduction operation minimum which has no identity")
  | i :: l' => inr (foldl Nat.min i l')
  end.

(** *** Frames *)

Definition col_feature (df : DataFrame F) : list string := feature <$> df.

Definition col_importance (df : DataFrame F) : list F := importance <$> df.

(** [df['importance_normalized']], a [KeyError] when the column is not
    there. *)
Definition col_importance_normalized (df : DataFrame F) : option (list F) :=
  mapM importance_normalized df.

Definition col_cumulative_importance (df : DataFrame F) : option (list F) :=
  mapM cumulative_importance df.

Definition col_index (df : DataFrame F) : list Z := label <$> df.

Definition set_importance_normalized (r : Row F) (v : F) : Row F :=
  mkRow (label r) (feature r) (importance r) (Some v)
        (cumulative_importance r).

Definition set_cumulative_importance (r : Row F) (v : F) : Row F :=
  mkRow (label r) (feature r) (importance r) (importance_normalized r)
        (Some v).

(** Insertion into rows already in descending order: before the first row
    that is not greater, so after every earlier row of equal
    importance. *)
Fixpoint insert_desc (r : Row F) (rows : list (Row F)) : list (Row F) :=
  match rows with
  | [] => [r]
  | x :: rows' =>
      if f_gtb (importance r) (importance x) then r :: x :: rows'
      else x :: insert_desc r rows'
  end.

(** Rows by importance, greatest first.  Rows of equal importance keep the
    order they came in, which is what [nargsort] returns when NumPy sorts
    by insertion, as its quicksort does on short arrays.  The default
    [kind = 'quicksort'] promises no order among such rows: what is proved
    of the returned table holds for any order of them, and where the order
    matters the table is taken to have no two equal importances
    ([no_ties]). *)
Definition sort_desc (rows : list (Row F)) : list (Row F) :=
  foldl (λ sorted r, insert_desc r sorted) [] rows.

(** [sort_values('importance', ascending = False)] as [nargsort] orders the
    rows: the rows that have a value by that value, then the NaN rows
    ([na_position = 'last']) as they came. *)
Definition sort_values_importance_desc (df : DataFrame F) : DataFrame F :=
  sort_desc (filter (λ r, f_isnan (importance r) = false) df)
  ++ filter (λ r, f_isnan (importance r) = true) df.

Fixpoint relabel (i : nat) (df : DataFrame F) : DataFrame F :=
  match df with
  | [] => []
  | r :: df' =>
      mkRow (Z.of_nat i) (feature r) (importance r)
            (importance_normalized r) (cumulative_importance r)
      :: relabel (S i) df'
  end.

(** [reset_index(drop = True)]: the labels become [0 .. len - 1]. *)
Definition reset_index_drop (df : DataFrame F) : DataFrame F := relabel 0 df.

(** Two rows in descending order of importance. *)
Definition row_descending (a b : Row F) : Prop :=
  descending (importance a) (importance b).

(** A row whose importance is not NaN. *)
Definition has_value (r : Row F) : Prop := f_isnan (importance r) = false.

(** A column without ties: of two entries one is greater than the other.
    The order of its rows after a sort is then the same under every
    sorting algorithm. *)
Definition no_ties (col : list F) : Prop :=
  ∀ i j x y, i < j → col !! i = Some x → col !! j = Some y →
    f_gtb x y = true ∨ f_gtb y x = true.

(** [df.loc[:n, :]]: a slice by label, the end included. *)
Definition loc_upto (n : nat) (df : DataFrame F) : DataFrame F :=
  filter (λ r, (label r ≤ Z.of_nat n)%Z) df.

(** *** The frame the function builds *)

(** What lines 71 to 75 make of the rows [d] of the caller's frame. *)
Definition sorted_frame (d : DataFrame F) : DataFrame F :=
  reset_index_drop (sort_values_importance_desc d).

Definition normalized (d : DataFrame F) : list F :=
  series_div (col_importance (sorted_frame d))
             (series_sum (col_importance (sorted_frame d))).

Definition cumulative (d : DataFrame F) : list F := np_cumsum (normalized d).

Definition built (d : DataFrame F) : DataFrame F :=
  zip_with set_cumulative_importance
    (zip_with set_importance_normalized (sorted_frame d) (normalized d))
    (cumulative d).

End Columns.

(** ** pandas on the store *)

Section Objects.
Context {F : Type} `{Scalar F}.

(** [df.sort_values('importance', ascending = False)]: a new frame. *)
Definition sort_values (df : loc) : M F loc :=
  d <- load df ;;
  alloc (sort_values_importance_desc d).

(** [df.reset_index(drop = True)]: a new frame. *)
Definition reset_index (df : loc) : M F loc :=
  d <- load df ;;
  alloc (reset_index_drop d).

(** [df['importance']] *)
Definition getitem_importance (df : loc) : M F (list F) :=
  d <- load df ;;
  ret (col_importance d).

Definition getitem_importance_normalized (df : loc) : M F (list F) :=
  d <- load df ;;
  match col_importance_normalized d with
  | Some col => ret col
  | None => raise (KeyError "importance_normalized")
  end.

Definition getitem_cumulative_importance (df : loc) : M F (list F) :=
  d <- load df ;;
  match col_cumulative_importance d with
  | Some col => ret col
  | None => raise (KeyError "cumulative_importance")
  end.

(** [df['importance_normalized'] = col]: the frame at [df] is changed in
    place.  [col] is a series computed from this frame, so it carries the
    frame's index and is aligned row by row. *)
Definition setitem_importance_normalized (df : loc) (col : list F)
  : M F unit :=
  d <- load df ;;
  store df (zip_with set_importance_normalized d col).

Definition setitem_cumulative_importance (df : loc) (col : list F)
  : M F unit :=
  d <- load df ;;
  store df (zip_with set_cumulative_importance d col).

(** [len(df)] *)
Definition len (df : loc) : M F nat :=
  d <- load df ;;
  ret (length d).

(** [df.loc[:n, :].plot.barh(y = 'importance_normalized', x = 'feature',
    ...)] and the title of the figure.  A selection without rows is not
    drawn: pandas raises (older versions put the class of the frame before
    the message). *)
Definition plot_barh (df : loc) (n : nat) : M F unit :=
  d <- load df ;;
  match loc_upto n d with
  | [] => raise (TypeError "no numeric data to plot")
  | _ :: _ =>
      match col_importance_normalized (loc_upto n d) with
      | Some col => emit (BarPlot n (zip (col_feature (loc_upto n d)) col))
      | None => raise (KeyError "importance_normalized")
      end
  end.

(** ** utils.py, [plot_feature_importances] *)

(** [threshold] is [None] when the caller gives none.  The name [df] is
    bound three times, as in the source: to the caller's frame, to the
    sorted one and to the re-indexed one. *)
Definition plot_feature_importances
    (df : loc) (n : nat) (threshold : option F) : M F loc :=
  df <- sort_values df ;;
  df <- reset_index df ;;
  imp <- getitem_importance df ;;
  setitem_importance_normalized df (series_div imp (series_sum imp)) ;;;
  nrm <- getitem_importance_normalized df ;;
  setitem_cumulative_importance df (np_cumsum nrm) ;;;
  plot_barh df n ;;;
  match threshold with
  | Some t =>
      if f_truthy t then
        k <- len df ;;
        cum <- getitem_cumulative_importance df ;;
        emit (LinePlot (seq 0 k) cum) ;;;
        cum <- getitem_cumulative_importance df ;;
        importance_index <- lift (np_min (np_where_gt cum t)) ;;
        emit (VLines (importance_index + 1)) ;;;
        emit Show ;;;
        emit (PrintRequired (importance_index + 1) t) ;;;
        ret df
      else ret df
  | None => ret df
  end.

End Objects.

(** ** utils.py, [evaluate] *)

(** A feature table (train or test): named float columns, held row by row,
    as scikit-learn reads it. *)
Record Table := mkTable {
  columns : list string;
  values : list (list float)
}.

(** What [evaluate] asks of scikit-learn.  The estimators are not part of
    the repository: they are taken as they are documented, results and
    exceptions, with the one check [evaluate] leans on. *)
Class Sklearn := {
  (** a fitted [Imputer(strategy = 'median', axis = 1)] *)
  imputer : Type;
  (** a fitted [RandomForestRegressor(n_estimators = 100, random_state = 50,
      n_jobs = -1)] *)
  forest : Type;
  fit_transform : list (list float) → exn + (imputer * list (list float));
  transform : imputer → list (list float) → exn + list (list float);
  (** [cross_val_score(model, X, y, scoring = "neg_median_absolute_error",
      cv = 5)], on clones of the model *)
  cross_val_score : list (list float) → list float → exn + list float;
  fit : list (list float) → list float → exn + forest;
  predict : forest → list (list float) → exn + list float;
  feature_importances_ : forest → list float;
  median_absolute_error : list float → list float → exn + float;
  (** [check_consistent_length(y_true, y_pred)]: "Found input variables with
      inconsistent numbers of samples" *)
  median_absolute_error_consistent : ∀ y_true y_pred e,
    median_absolute_error y_true y_pred = inr e →
    length y_true = length y_pred
}.

(** [{np.inf: np.nan, -np.inf: np.nan}] on one cell. *)
Definition inf_to_nan (x : float) : float :=
  if PrimFloat.is_infinity x then PrimFloat.nan else x.

(** [table.replace({np.inf: np.nan, -np.inf: np.nan})]: a new table. *)
Definition replace_inf (t : Table) : Table :=
  mkTable (columns t) ((λ row : list float, inf_to_nan <$> row) <$> values t).

(** [pd.DataFrame({'feature': features, 'importance': importances})]: the
    two columns side by side under a fresh range index; columns of different
    lengths are refused. *)
Definition DataFrame_of_columns {F} (features : list string)
    (importances : list F) : exn + DataFrame F :=
  if decide (length features = length importances)
  then inr (reset_index_drop
              (zip_with (λ f i, mkRow 0%Z f i None None) features importances))
  else inl (ValueError "arrays must all be same length").

Section Evaluate.
Context `{Sklearn}.

Definition evaluate (train : Table) (train_labels : list float)
    (test : Table) (test_labels : list float)
  : M float (list float * loc) :=
  let train := replace_inf train in
  let test := replace_inf test in
  let feature_names := columns train in
  fitted <- lift (fit_transform (values train)) ;;
  let train := snd fitted in
  test <- lift (transform (fst fitted) (values test)) ;;
  scores <- lift (cross_val_score train train_labels) ;;
  let cv_score := PrimFloat.mul (-1)%float <$> scores in
  model <- lift (fit train train_labels) ;;
  preds <- lift (predict model test) ;;
  mae_score <- lift (median_absolute_error test_labels preds) ;;
  emit (PrintCV cv_score) ;;;
  emit (PrintMAE mae_score) ;;;
  frame <- lift (DataFrame_of_columns feature_names
                   (feature_importances_ model)) ;;
  feature_importances <- alloc frame ;;
  ret (preds, feature_importances).

End Evaluate.

(** ** Normalization without rounding *)


(** ** Tables to run the functions on *)

(** Three features, exact importances that sum to one. *)
Definition table_Q : DataFrame Q :=
  [mkRow 10 "quantity" (2 # 10)%Q None None;
   mkRow 11 "price" (5 # 10)%Q None None;
   mkRow 12 "country" (3 # 10)%Q None None].

Definition world_Q : world Q := mkWorld [table_Q] [].

(** The rows of [table_Q] under other labels, with the two added columns
    already there, as a table that was returned by an earlier call has
    them. *)
Definition table_Q_again : DataFrame Q :=
  [mkRow 5 "quantity" (2 # 10)%Q (Some 7%Q) (Some 7%Q);
   mkRow 3 "price" (5 # 10)%Q (Some 8%Q) (Some 15%Q);
   mkRow 9 "country" (3 # 10)%Q (Some 9%Q) (Some 24%Q)].

Definition world_Q_again : world Q := mkWorld [table_Q_again] [].



(** Three features with binary64 importances 9, 18 and 8. *)
Definition table_18_9_8 : DataFrame float :=
  [mkRow 0 "quantity" 9%float None None;
   mkRow 1 "price" 18%float None None;
   mkRow 2 "country" 8%float None None].

Definition world_18_9_8 : world float := mkWorld [table_18_9_8] [].

(** Three features with binary64 importances 1, 18 and 9. *)
Definition table_18_9_1 : DataFrame float :=
  [mkRow 0 "quantity" 1%float None None;
   mkRow 1 "price" 18%float None None;
   mkRow 2 "country" 9%float None None].

Definition world_18_9_1 : world float := mkWorld [table_18_9_1] [].



(** An infinite importance, as a caller may pass it. *)
Definition table_inf_1 : DataFrame float :=
  [mkRow 0 "quantity" infinity None None;
   mkRow 1 "price" 1%float None None].

Definition world_inf_1 : world float := mkWorld [table_inf_1] [].


(** Two features of importance 0, as a forest of trees that never split
    gives them. *)
Definition table_zero : DataFrame float :=
  [mkRow 0 "quantity" 0%float None None;
   mkRow 1 "price" 0%float None None].

Definition world_zero : world float := mkWorld [table_zero] [].

(** A stand-in for scikit-learn to run [evaluate] on: nothing is imputed,
    every prediction is 0 and every column of the training table has
    importance 1. *)
Definition constant_median_absolute_error (y_true y_pred : list float)
  : exn + float :=
  if decide (length y_true = length y_pred) then inr 0%float
  else inl (ValueError
    "Found input variables with inconsistent numbers of samples").

Definition constant_sklearn : Sklearn := {|
  imputer := unit;
  forest := nat;
  fit_transform X := inr (tt, X);
  transform _ X := inr X;
  cross_val_score _ _ := inr (replicate 5 (-1)%float);
  fit X _ := inr (length (default [] (head X)));
  predict _ X := inr ((λ _, 0%float) <$> X);
  feature_importances_ m := replicate m 1%float;
  median_absolute_error := constant_median_absolute_error;
  median_absolute_error_consistent :=
    ltac:(intros y_true y_pred e;
          unfold constant_median_absolute_error; by case_decide)
|}.

Definition train_table : Table :=
  mkTable ["quantity"; "price"]
          [[1%float; 2%float]; [3%float; infinity]; [5%float; 6%float]].

Definition test_table : Table :=
  mkTable ["quantity"; "price"] [[7%float; 8%float]; [9%float; 10%float]].

Definition empty_world : world float := mkWorld [] [].

(** * Properties *)

(** ** The monad and the store *)

Section Run.
Context {F : Type} `{Scalar F}.
Implicit Types (w : world F) (d : DataFrame F) (col : list F).

Lemma bind_inr {A B} (m : M F A) (k : A → M F B) w a w' :
  m w = (inr a, w') → bind m k w = k a w'.
Proof. unfold bind. by intros ->. Qed.

Lemma bind_inl {A B} (m : M F A) (k : A → M F B) w e w' :
  m w = (inl e, w') → bind m k w = (inl e, w').
Proof. unfold bind. by intros ->. Qed.

Lemma load_Some l w (d : DataFrame F) :
  heap w !! l = Some d → load l w = (inr d, w).
Proof. unfold load. by intros ->. Qed.

Lemma lookup_last (h : list (DataFrame F)) d :
  (h ++ [d]) !! length h = Some d.
Proof. by apply list_lookup_middle. Qed.

Lemma insert_last (h : list (DataFrame F)) d d' :
  <[length h := d']> (h ++ [d]) = h ++ [d'].
Proof.
  rewrite insert_app_r_alt by lia. by rewrite Nat.sub_diag.
Qed.

Lemma sort_values_run df w d :
  heap w !! df = Some d →
  sort_values df w
  = (inr (length (heap w)),
     mkWorld (heap w ++ [sort_values_importance_desc d]) (output w)).
Proof.
  intros Hd. unfold sort_values.
  by rewrite (bind_inr _ _ _ _ _ (load_Some _ _ _ Hd)).
Qed.

Lemma reset_index_run df w d :
  heap w !! df = Some d →
  reset_index df w
  = (inr (length (heap w)),
     mkWorld (heap w ++ [reset_index_drop d]) (output w)).
Proof.
  intros Hd. unfold reset_index.
  by rewrite (bind_inr _ _ _ _ _ (load_Some _ _ _ Hd)).
Qed.

Lemma getitem_importance_run df w d :
  heap w !! df = Some d →
  getitem_importance df w = (inr (col_importance d), w).
Proof.
  intros Hd. unfold getitem_importance.
  by rewrite (bind_inr _ _ _ _ _ (load_Some _ _ _ Hd)).
Qed.

Lemma getitem_importance_normalized_run df w d col :
  heap w !! df = Some d →
  col_importance_normalized d = Some col →
  getitem_importance_normalized df w = (inr col, w).
Proof.
  intros Hd Hcol. unfold getitem_importance_normalized.
  rewrite (bind_inr _ _ _ _ _ (load_Some _ _ _ Hd)). by rewrite Hcol.
Qed.

Lemma getitem_cumulative_importance_run df w d col :
  heap w !! df = Some d →
  col_cumulative_importance d = Some col →
  getitem_cumulative_importance df w = (inr col, w).
Proof.
  intros Hd Hcol. unfold getitem_cumulative_importance.
  rewrite (bind_inr _ _ _ _ _ (load_Some _ _ _ Hd)). by rewrite Hcol.
Qed.

Lemma setitem_importance_normalized_run df w d col :
  heap w !! df = Some d →
  setitem_importance_normalized df col w
  = (inr tt,
     mkWorld (<[df := zip_with set_importance_normalized d col]> (heap w))
             (output w)).
Proof.
  intros Hd. unfold setitem_importance_normalized.
  by rewrite (bind_inr _ _ _ _ _ (load_Some _ _ _ Hd)).
Qed.

Lemma setitem_cumulative_importance_run df w d col :
  heap w !! df = Some d →
  setitem_cumulative_importance df col w
  = (inr tt,
     mkWorld (<[df := zip_with set_cumulative_importance d col]> (heap w))
             (output w)).
Proof.
  intros Hd. unfold setitem_cumulative_importance.
  by rewrite (bind_inr _ _ _ _ _ (load_Some _ _ _ Hd)).
Qed.

Lemma len_run df w d :
  heap w !! df = Some d → len df w = (inr (length d), w).
Proof.
  intros Hd. unfold len.
  by rewrite (bind_inr _ _ _ _ _ (load_Some _ _ _ Hd)).
Qed.

Lemma plot_barh_run df w d n col :
  heap w !! df = Some d →
  loc_upto n d ≠ [] →
  col_importance_normalized (loc_upto n d) = Some col →
  plot_barh df n w
  = (inr tt,
     mkWorld (heap w)
             (output w ++ [BarPlot n (zip (col_feature (loc_upto n d)) col)])).
Proof.
  intros Hd Hrows Hcol. unfold plot_barh.
  rewrite (bind_inr _ _ _ _ _ (load_Some _ _ _ Hd)).
  destruct (loc_upto n d); [done|]. by rewrite Hcol.
Qed.

Lemma plot_barh_empty df w d n :
  heap w !! df = Some d →
  loc_upto n d = [] →
  plot_barh df n w = (inl (TypeError "no numeric data to plot"), w).
Proof.
  intros Hd Hrows. unfold plot_barh.
  rewrite (bind_inr _ _ _ _ _ (load_Some _ _ _ Hd)). by rewrite Hrows.
Qed.

End Run.

(** ** Columns of a frame *)

Section Frames.
Context {F : Type} `{Scalar F}.
Implicit Types (d : DataFrame F) (col : list F) (r : Row F).

Lemma length_series_div col x : length (series_div col x) = length col.
Proof. unfold series_div. by rewrite length_fmap. Qed.

Lemma length_cumsum_from acc col : length (cumsum_from acc col) = length col.
Proof. revert acc. induction col as [|x col IH]; intros; simpl; auto. Qed.

Lemma length_ndarray_cumsum col : length (ndarray_cumsum col) = length col.
Proof. destruct col; simpl; auto using length_cumsum_from. Qed.

Lemma length_np_cumsum col : length (np_cumsum col) = length col.
Proof.
  unfold np_cumsum.
  rewrite length_zip_with, length_ndarray_cumsum, length_fmap. lia.
Qed.

Lemma length_relabel i d : length (relabel i d) = length d.
Proof. revert i. induction d; intros; simpl; auto. Qed.

Lemma col_feature_relabel i d : col_feature (relabel i d) = col_feature d.
Proof. revert i. induction d; intros; simpl; f_equal; auto. Qed.

Lemma col_importance_relabel i d :
  col_importance (relabel i d) = col_importance d.
Proof. revert i. induction d; intros; simpl; f_equal; auto. Qed.

Lemma col_index_relabel i d :
  col_index (relabel i d) = Z.of_nat <$> seq i (length d).
Proof. revert i. induction d; intros; simpl; f_equal; auto. Qed.

(** Setting a column leaves the length and the other columns alone, when
    the column has a value for every row. *)
Section Setitem.
Variables (d : DataFrame F) (col : list F).
Hypothesis Hlen : length col = length d.

Lemma length_set_importance_normalized :
  length (zip_with set_importance_normalized d col) = length d.
Proof. rewrite length_zip_with. lia. Qed.

Lemma length_set_cumulative_importance :
  length (zip_with set_cumulative_importance d col) = length d.
Proof. rewrite length_zip_with. lia. Qed.

Lemma col_importance_normalized_set :
  col_importance_normalized (zip_with set_importance_normalized d col)
  = Some col.
Proof.
  apply mapM_Some. revert col Hlen.
  induction d as [|r d' IH]; intros [|x col'] Hl; simplify_eq/=;
    constructor; auto.
Qed.

Lemma col_cumulative_importance_set :
  col_cumulative_importance (zip_with set_cumulative_importance d col)
  = Some col.
Proof.
  apply mapM_Some. revert col Hlen.
  induction d as [|r d' IH]; intros [|x col'] Hl; simplify_eq/=;
    constructor; auto.
Qed.

Lemma col_importance_normalized_set_cumulative :
  col_importance_normalized (zip_with set_cumulative_importance d col)
  = col_importance_normalized d.
Proof.
  unfold col_importance_normalized. revert col Hlen.
  induction d as [|r d' IH]; intros [|x col'] Hl; simplify_eq/=; auto.
  by rewrite IH.
Qed.

Lemma fmap_set_importance_normalized {A} (f : Row F → A) :
  (∀ r x, f (set_importance_normalized r x) = f r) →
  f <$> zip_with set_importance_normalized d col = f <$> d.
Proof.
  intros Hf. revert col Hlen.
  induction d as [|r d' IH]; intros [|x col'] Hl; simplify_eq/=; auto.
  by rewrite Hf, IH.
Qed.

Lemma fmap_set_cumulative_importance {A} (f : Row F → A) :
  (∀ r x, f (set_cumulative_importance r x) = f r) →
  f <$> zip_with set_cumulative_importance d col = f <$> d.
Proof.
  intros Hf. revert col Hlen.
  induction d as [|r d' IH]; intros [|x col'] Hl; simplify_eq/=; auto.
  by rewrite Hf, IH.
Qed.
End Setitem.

Lemma length_sorted_frame d :
  length (sorted_frame d) = length (sort_values_importance_desc d).
Proof. apply length_relabel. Qed.

Lemma length_normalized d : length (normalized d) = length (sorted_frame d).
Proof.
  unfold normalized, col_importance.
  by rewrite length_series_div, length_fmap.
Qed.

Lemma length_cumulative d : length (cumulative d) = length (sorted_frame d).
Proof. unfold cumulative. by rewrite length_np_cumsum, length_normalized. Qed.

Lemma length_built d : length (built d) = length (sorted_frame d).
Proof.
  unfold built.
  rewrite length_set_cumulative_importance;
    rewrite length_set_importance_normalized;
    auto using length_normalized, length_cumulative.
Qed.

Lemma col_importance_normalized_built d :
  col_importance_normalized (built d) = Some (normalized d).
Proof.
  unfold built. rewrite col_importance_normalized_set_cumulative.
  - apply col_importance_normalized_set, length_normalized.
  - rewrite length_set_importance_normalized;
      auto using length_normalized, length_cumulative.
Qed.

Lemma col_cumulative_importance_built d :
  col_cumulative_importance (built d) = Some (cumulative d).
Proof.
  unfold built. apply col_cumulative_importance_set.
  rewrite length_set_importance_normalized;
    auto using length_normalized, length_cumulative.
Qed.

Lemma fmap_built {A} (f : Row F → A) d :
  (∀ r x, f (set_importance_normalized r x) = f r) →
  (∀ r x, f (set_cumulative_importance r x) = f r) →
  f <$> built d = f <$> sorted_frame d.
Proof.
  intros Hn Hc. unfold built.
  rewrite fmap_set_cumulative_importance, fmap_set_importance_normalized;
    try rewrite length_set_importance_normalized;
    auto using length_normalized, length_cumulative.
Qed.

Lemma col_importance_built d :
  col_importance (built d) = col_importance (sort_values_importance_desc d).
Proof.
  unfold col_importance. rewrite fmap_built by done.
  apply col_importance_relabel.
Qed.

Lemma col_feature_built d :
  col_feature (built d) = col_feature (sort_values_importance_desc d).
Proof.
  unfold col_feature. rewrite fmap_built by done.
  apply col_feature_relabel.
Qed.

Lemma col_index_built d :
  col_index (built d) = Z.of_nat <$> seq 0 (length (built d)).
Proof.
  unfold col_index. rewrite fmap_built by done.
  rewrite length_built, length_sorted_frame.
  apply col_index_relabel.
Qed.

End Frames.

(** ** The order of summation *)

Section Summation.
Context {F : Type} `{Scalar F}.
Implicit Types (a col : list F).

(** The depth given to [pairwise_sum] is enough: any depth that covers the
    length gives the same sum. *)
Lemma pairwise_sum_depth d1 d2 a :
  length a ≤ d1 + 128 → length a ≤ d2 + 128 →
  pairwise_sum d1 a = pairwise_sum d2 a.
Proof.
  revert d2 a. induction d1 as [|d1 IH]; intros d2 a H1 H2.
  - destruct d2 as [|d2]; cbn [pairwise_sum]; [done|].
    destruct (Nat.ltb_spec 128 (length a)); [lia|done].
  - destruct d2 as [|d2]; cbn [pairwise_sum].
    + destruct (Nat.ltb_spec 128 (length a)); [lia|done].
    + destruct (Nat.ltb_spec 128 (length a)) as [Hlt|]; [|done].
      pose proof (Nat.div_mod_eq (length a) 2) as Hdiv.
      pose proof (Nat.mod_upper_bound (length a) 2) as Hmod.
      pose proof (Nat.mod_upper_bound (length a / 2) 8) as Hmod8.
      f_equal; apply IH; rewrite ?length_take, ?length_drop; lia.
Qed.

(** Fewer than eight values are added from the left. *)
Lemma series_sum_short col :
  length col < 8 →
  series_sum col = f_add f_zero (foldl f_add f_zero (nan_to_zero <$> col)).
Proof.
  intros Hlen. unfold series_sum, ndarray_sum. f_equal.
  rewrite (pairwise_sum_depth _ 0); [|lia|rewrite length_fmap; lia].
  simpl. unfold sum_block.
  assert (Hshort : length (nan_to_zero <$> col) < 8)
    by by rewrite length_fmap.
  by destruct (nan_to_zero <$> col) as [|? [|? [|? [|? [|? [|? [|? [|? ?]]]]]]]];
    simpl in Hshort; [..|lia].
Qed.

(** What holds of zero and is kept by the addition holds of the sum of
    values of which it holds, whatever the order they are added in. *)
Section Closed.
Variable P : F → Prop.
Hypothesis P_zero : P f_zero.
Hypothesis P_add : ∀ x y, P x → P y → P (f_add x y).

Lemma foldl_closed acc a : P acc → Forall P a → P (foldl f_add acc a).
Proof.
  intros Hacc Ha. revert acc Hacc.
  induction Ha as [|x a Hx _ IH]; intros acc Hacc; simpl; auto.
Qed.

Lemma add_blocks_closed k r a :
  length a ≤ k → lanes_all P r → Forall P a →
  lanes_all P (add_blocks r a).1 ∧ Forall P (add_blocks r a).2.
Proof.
  revert r a. induction k as [|k IH]; intros r a Hk Hr Ha.
  { destruct a; [done|simpl in Hk; lia]. }
  destruct r as [[[[[[[r0 r1] r2] r3] r4] r5] r6] r7].
  destruct Ha as [|a0 ? H0 [|a1 ? H1 [|a2 ? H2 [|a3 ? H3 [|a4 ? H4
    [|a5 ? H5 [|a6 ? H6 [|a7 a' H7 Ha]]]]]]]];
    try (simpl; split; [exact Hr|repeat constructor; assumption]).
  simpl. destruct Hr as (?&?&?&?&?&?&?&?).
  apply IH; [simpl in Hk; lia|repeat split; auto|done].
Qed.

Lemma sum_lanes_closed r : lanes_all P r → P (sum_lanes r).
Proof.
  destruct r as [[[[[[[r0 r1] r2] r3] r4] r5] r6] r7].
  intros (?&?&?&?&?&?&?&?). simpl. auto 10.
Qed.

Lemma sum_block_closed a : Forall P a → P (sum_block a).
Proof.
  intros Ha. unfold sum_block.
  destruct Ha as [|a0 ? H0 [|a1 ? H1 [|a2 ? H2 [|a3 ? H3 [|a4 ? H4
    [|a5 ? H5 [|a6 ? H6 [|a7 a' H7 Ha]]]]]]]];
    try (apply foldl_closed; [exact P_zero|repeat constructor; assumption]).
  pose proof (add_blocks_closed (length a') (a0, a1, a2, a3, a4, a5, a6, a7)
                a' (le_n _)) as Hblocks.
  destruct (add_blocks _ a') as [r rest].
  destruct Hblocks as [Hr Hrest]; [by repeat split|done|].
  apply foldl_closed; [by apply sum_lanes_closed|done].
Qed.

Lemma pairwise_sum_closed depth a : Forall P a → P (pairwise_sum depth a).
Proof.
  revert a. induction depth as [|depth IH]; intros a Ha; simpl.
  - by apply sum_block_closed.
  - case_match; [|by apply sum_block_closed].
    apply P_add; apply IH; [by apply Forall_take|by apply Forall_drop].
Qed.

Lemma series_sum_closed col :
  Forall P (nan_to_zero <$> col) → P (series_sum col).
Proof.
  intros Hcol. unfold series_sum, ndarray_sum.
  apply P_add; [exact P_zero|by apply pairwise_sum_closed].
Qed.

End Closed.

End Summation.

(** ** The sort *)

Section Sort.
Context {F : Type} `{Scalar F}.
Implicit Types (d rows : DataFrame F) (r : Row F).

Lemma insert_desc_Permutation r rows : insert_desc r rows ≡ₚ r :: rows.
Proof.
  induction rows as [|x rows IH]; simpl; [done|].
  destruct (f_gtb (importance r) (importance x)); [done|].
  rewrite IH. apply Permutation_swap.
Qed.

Lemma foldl_insert_desc_Permutation rows acc :
  foldl (λ sorted r, insert_desc r sorted) acc rows ≡ₚ acc ++ rows.
Proof.
  revert acc. induction rows as [|x rows IH]; intros acc; simpl.
  - by rewrite app_nil_r.
  - rewrite IH, insert_desc_Permutation. simpl. apply Permutation_middle.
Qed.

Lemma sort_desc_Permutation rows : sort_desc rows ≡ₚ rows.
Proof. apply (foldl_insert_desc_Permutation rows []). Qed.

Lemma filter_isnan_Permutation d :
  filter (λ r, f_isnan (importance r) = false) d
  ++ filter (λ r, f_isnan (importance r) = true) d ≡ₚ d.
Proof.
  induction d as [|x d IH]; [done|].
  rewrite !filter_cons.
  destruct (f_isnan (importance x)) eqn:Hx; repeat case_decide; try done.
  - by rewrite <- Permutation_middle, IH.
  - simpl. by rewrite IH.
Qed.

(** The sort reorders the rows and does nothing else to them. *)
Lemma sort_values_importance_desc_Permutation d :
  sort_values_importance_desc d ≡ₚ d.
Proof.
  unfold sort_values_importance_desc.
  by rewrite sort_desc_Permutation, filter_isnan_Permutation.
Qed.

Lemma length_sort_values_importance_desc d :
  length (sort_values_importance_desc d) = length d.
Proof. by rewrite sort_values_importance_desc_Permutation. Qed.

Lemma length_built_input d : length (built d) = length d.
Proof.
  by rewrite length_built, length_sorted_frame,
             length_sort_values_importance_desc.
Qed.

Context `{!ScalarOrder F}.

Lemma insert_desc_sorted r rows :
  has_value r → Forall has_value rows →
  StronglySorted row_descending rows →
  StronglySorted row_descending (insert_desc r rows).
Proof.
  intros Hr Hrows Hsorted.
  induction Hsorted as [|x rows Hs IH Hx]; simpl; [repeat constructor|].
  apply Forall_cons in Hrows as [Hxv Hrows].
  destruct (f_gtb (importance r) (importance x)) eqn:Hgt.
  - constructor; [by constructor|].
    assert (Hrx : row_descending r x) by by apply f_gtb_asym.
    constructor; [done|].
    eapply Forall_impl; [exact Hx|]. intros y Hxy.
    unfold row_descending, descending in *. eauto using f_gtb_trans.
  - constructor; [auto|].
    rewrite insert_desc_Permutation. by constructor.
Qed.

Lemma foldl_insert_desc_sorted rows acc :
  Forall has_value rows → Forall has_value acc →
  StronglySorted row_descending acc →
  StronglySorted row_descending
    (foldl (λ sorted r, insert_desc r sorted) acc rows).
Proof.
  revert acc. induction rows as [|x rows IH]; intros acc Hrows Hacc Hs;
    simpl; [done|].
  apply Forall_cons in Hrows as [Hx Hrows].
  apply IH; [done| |by apply insert_desc_sorted].
  rewrite insert_desc_Permutation. by constructor.
Qed.

(** After the sort no row has a greater importance than a row before it. *)
Lemma sort_values_importance_desc_sorted d :
  StronglySorted row_descending (sort_values_importance_desc d).
Proof.
  unfold sort_values_importance_desc. apply StronglySorted_app_2.
  - intros a b _ Hb. apply list_elem_of_filter in Hb as [Hb _].
    by apply f_gtb_nan.
  - apply foldl_insert_desc_sorted; [|constructor..].
    apply Forall_forall. intros r Hr.
    by apply list_elem_of_filter in Hr as [Hr _].
  - induction d as [|x d IH]; [constructor|].
    rewrite filter_cons. case_decide; [|done].
    constructor; [done|].
    apply Forall_forall. intros b Hb.
    apply list_elem_of_filter in Hb as [Hb _]. by apply f_gtb_nan.
Qed.

End Sort.

(** ** What a call of [plot_feature_importances] does *)

Section Call.
Context {F : Type} `{Scalar F}.
Implicit Types (w : world F) (d : DataFrame F) (col : list F).

(** Under a range index that starts at [i], the slice by label [:n] is the
    slice by position that ends after label [n]. *)
Lemma loc_upto_range i n d :
  col_index d = Z.of_nat <$> seq i (length d) →
  loc_upto n d = take (S n - i) d.
Proof.
  unfold loc_upto. revert i.
  induction d as [|r d IH]; intros i Hidx; [by rewrite take_nil|].
  simpl in Hidx. injection Hidx as Hr Hd.
  rewrite filter_cons, (IH (S i) Hd). case_decide as Hle.
  - replace (S n - i) with (S (S n - S i)) by lia. done.
  - replace (S n - i) with 0 by lia. by replace (S n - S i) with 0 by lia.
Qed.

Lemma loc_upto_built n d : loc_upto n (built d) = take (S n) (built d).
Proof.
  rewrite (loc_upto_range 0); [by rewrite Nat.sub_0_r|apply col_index_built].
Qed.

Lemma col_importance_normalized_take k d col :
  col_importance_normalized d = Some col →
  col_importance_normalized (take k d) = Some (take k col).
Proof.
  unfold col_importance_normalized. rewrite !mapM_Some.
  apply Forall2_take.
Qed.

(** The bars of the bar plot: the first [n + 1] rows of the built frame,
    each feature with its normalized importance. *)
Lemma plot_barh_built n w d h :
  d ≠ [] →
  heap w = h ++ [built d] →
  plot_barh (length h) n w
  = (inr tt,
     mkWorld (heap w)
       (output w
        ++ [BarPlot n (take (S n) (zip (col_feature (built d))
                                       (normalized d)))])).
Proof.
  intros Hrows Hw.
  erewrite plot_barh_run;
    [|rewrite Hw; apply lookup_last
     |rewrite loc_upto_built; intros Hnil;
      apply (f_equal length) in Hnil;
      rewrite length_take, length_built_input in Hnil;
      destruct d; [done|simpl in Hnil; lia]
     |rewrite loc_upto_built;
      apply col_importance_normalized_take,
            col_importance_normalized_built].
  rewrite loc_upto_built. unfold col_feature.
  by rewrite fmap_take, zip_with_take.
Qed.

(** The outcome of a call, figure by figure. *)
Lemma plot_feature_importances_outcome df n threshold w d :
  heap w !! df = Some d →
  d ≠ [] →
  plot_feature_importances df n threshold w
  = let h := heap w ++ [sort_values_importance_desc d; built d] in
    let bars := take (S n) (zip (col_feature (built d)) (normalized d)) in
    let o := output w ++ [BarPlot n bars] in
    let line := LinePlot (seq 0 (length d)) (cumulative d) in
    let result := S (length (heap w)) in
    match threshold with
    | Some t =>
        if f_truthy t then
          match np_min (np_where_gt (cumulative d) t) with
          | inr i =>
              (inr result,
               mkWorld h (o ++ [line; VLines (i + 1); Show;
                                PrintRequired (i + 1) t]))
          | inl e => (inl e, mkWorld h (o ++ [line]))
          end
        else (inr result, mkWorld h o)
    | None => (inr result, mkWorld h o)
    end.
Proof.
  intros Hd Hrows. unfold plot_feature_importances.
  rewrite (bind_inr _ _ _ _ _ (sort_values_run _ _ _ Hd)).
  set (h1 := heap w ++ [sort_values_importance_desc d]).
  assert (Hh1 : length h1 = S (length (heap w)))
    by (unfold h1; rewrite length_app; simpl; lia).
  erewrite bind_inr; [|apply reset_index_run; apply lookup_last].
  simpl heap. simpl output. fold (sorted_frame d).
  erewrite bind_inr; [|apply getitem_importance_run; apply lookup_last].
  erewrite bind_inr;
    [|apply setitem_importance_normalized_run; apply lookup_last].
  simpl heap. simpl output. rewrite insert_last. fold (normalized d).
  erewrite bind_inr;
    [|eapply getitem_importance_normalized_run; [apply lookup_last|];
      apply col_importance_normalized_set, length_normalized].
  erewrite bind_inr;
    [|apply setitem_cumulative_importance_run; apply lookup_last].
  simpl heap. simpl output. rewrite insert_last.
  fold (cumulative d). fold (built d).
  erewrite bind_inr; [|by apply plot_barh_built].
  simpl heap. simpl output.
  assert (Hheap : h1 ++ [built d]
                  = heap w ++ [sort_values_importance_desc d; built d])
    by (unfold h1; by rewrite <- app_assoc).
  destruct threshold as [t|]; [destruct (f_truthy t)|];
    [|unfold ret; by rewrite Hh1, Hheap..].
  erewrite bind_inr; [|apply len_run; apply lookup_last].
  erewrite bind_inr;
    [|eapply getitem_cumulative_importance_run; [apply lookup_last|];
      apply col_cumulative_importance_built].
  erewrite bind_inr; [|reflexivity].
  simpl heap. simpl output.
  erewrite bind_inr;
    [|eapply getitem_cumulative_importance_run; [apply lookup_last|];
      apply col_cumulative_importance_built].
  unfold bind, lift, emit, ret. simpl. rewrite length_built_input.
  destruct (np_min (np_where_gt (cumulative d) t)) as [e|i]; simpl.
  - by rewrite Hheap.
  - rewrite Hh1, Hheap. by rewrite <- !app_assoc.
Qed.

(** On a table without rows the two frames are allocated and the call
    raises where the bar plot is drawn: nothing is drawn or printed. *)
Lemma plot_feature_importances_empty df n threshold w :
  heap w !! df = Some [] →
  plot_feature_importances df n threshold w
  = (inl (TypeError "no numeric data to plot"),
     mkWorld (heap w ++ [[]; []]) (output w)).
Proof.
  intros Hd. unfold plot_feature_importances.
  rewrite (bind_inr _ _ _ _ _ (sort_values_run _ _ _ Hd)).
  erewrite bind_inr; [|apply reset_index_run; apply lookup_last].
  simpl heap. simpl output.
  erewrite bind_inr; [|apply getitem_importance_run; apply lookup_last].
  erewrite bind_inr;
    [|apply setitem_importance_normalized_run; apply lookup_last].
  simpl heap. simpl output. rewrite insert_last.
  erewrite bind_inr;
    [|eapply getitem_importance_normalized_run; [apply lookup_last|];
      reflexivity].
  erewrite bind_inr;
    [|apply setitem_cumulative_importance_run; apply lookup_last].
  simpl heap. simpl output. rewrite insert_last.
  erewrite bind_inl; [|eapply plot_barh_empty; [apply lookup_last|done]].
  by rewrite <- app_assoc.
Qed.

End Call.

(** ** The returned frame *)

Section Returned.
Context {F : Type} `{Scalar F}.
Implicit Types (w : world F) (d : DataFrame F) (col : list F).

(** Whatever the outcome, the store has grown by the sorted frame and the
    built frame, in this order. *)
Lemma plot_feature_importances_heap df n threshold w d res w' :
  heap w !! df = Some d →
  plot_feature_importances df n threshold w = (res, w') →
  heap w' = heap w ++ [sort_values_importance_desc d; built d].
Proof.
  intros Hd Hrun. destruct (decide (d = [])) as [->|Hrows].
  - rewrite (plot_feature_importances_empty _ _ _ _ Hd) in Hrun.
    by simplify_eq.
  - rewrite (plot_feature_importances_outcome _ _ _ _ _ Hd Hrows) in Hrun.
    simpl in Hrun.
    destruct threshold as [t|]; [destruct (f_truthy t)|];
      [destruct (np_min _)|..]; by simplify_eq.
Qed.

Lemma plot_feature_importances_result df n threshold w d result w' :
  heap w !! df = Some d →
  plot_feature_importances df n threshold w = (inr result, w') →
  result = S (length (heap w)).
Proof.
  intros Hd Hrun. destruct (decide (d = [])) as [->|Hrows].
  - rewrite (plot_feature_importances_empty _ _ _ _ Hd) in Hrun.
    by simplify_eq.
  - rewrite (plot_feature_importances_outcome _ _ _ _ _ Hd Hrows) in Hrun.
    simpl in Hrun.
    destruct threshold as [t|]; [destruct (f_truthy t)|];
      [destruct (np_min _)|..]; by simplify_eq.
Qed.

Lemma lookup_built (h : list (DataFrame F)) d1 d2 :
  (h ++ [d1; d2]) !! S (length h) = Some d2.
Proof.
  replace (h ++ [d1; d2]) with ((h ++ [d1]) ++ [d2])
    by by rewrite <- app_assoc.
  apply list_lookup_middle. rewrite length_app. simpl. lia.
Qed.

(** The frame a call returns is the built frame. *)
Lemma plot_feature_importances_returns df n threshold w d result w' :
  heap w !! df = Some d →
  plot_feature_importances df n threshold w = (inr result, w') →
  heap w' !! result = Some (built d).
Proof.
  intros Hd Hrun.
  rewrite (plot_feature_importances_result _ _ _ _ _ _ _ Hd Hrun).
  rewrite (plot_feature_importances_heap _ _ _ _ _ _ _ Hd Hrun).
  apply lookup_built.
Qed.

End Returned.

(** ** The threshold lookup *)

Section Lookup.
Context {F : Type} `{Scalar F}.
Implicit Types (col : list F) (t : F).

Lemma foldl_min_lower_bound i l :
  Forall (λ j, i ≤ j) l → foldl Nat.min i l = i.
Proof.
  induction 1 as [|j l Hj _ IH]; simpl; [done|].
  by rewrite Nat.min_l.
Qed.

Lemma where_from_lower_bound i col t :
  Forall (λ j, i ≤ j) (where_from i col t).
Proof.
  revert i. induction col as [|c col IH]; intros i; simpl; [constructor|].
  assert (Hrest : Forall (λ j, i ≤ j) (where_from (S i) col t)).
  { eapply Forall_impl; [apply IH|]. simpl. lia. }
  destruct (f_gtb c t); [constructor|]; auto.
Qed.

(** [np.min(np.where(col > t))] is the first position where the comparison
    is true, and raises when there is none. *)
Lemma np_min_where_from i col t :
  match np_min (where_from i col t) with
  | inr m =>
      ∃ k c, m = i + k ∧ col !! k = Some c ∧ f_gtb c t = true ∧
             ∀ j c', j < k → col !! j = Some c' → f_gtb c' t = false
  | inl _ => Forall (λ c, f_gtb c t = false) col
  end.
Proof.
  revert i. induction col as [|c col IH]; intros i; simpl; [constructor|].
  destruct (f_gtb c t) eqn:Hc.
  - simpl. rewrite foldl_min_lower_bound.
    + exists 0, c. repeat split; [lia|done|lia].
    + eapply Forall_impl; [apply (where_from_lower_bound (S i))|].
      simpl. lia.
  - specialize (IH (S i)).
    destruct (np_min (where_from (S i) col t)) as [e|m].
    + by constructor.
    + destruct IH as (k & c' & -> & Hk & Hgt & Hleast).
      exists (S k), c'. repeat split; [lia|done..|].
      intros [|j] c'' Hj Hlook; simpl in Hlook; [by simplify_eq|].
      apply (Hleast j); [lia|done].
Qed.

Lemma np_min_where_gt col t :
  match np_min (np_where_gt col t) with
  | inr k =>
      ∃ c, col !! k = Some c ∧ f_gtb c t = true ∧
           ∀ j c', j < k → col !! j = Some c' → f_gtb c' t = false
  | inl _ => Forall (λ c, f_gtb c t = false) col
  end.
Proof.
  unfold np_where_gt. pose proof (np_min_where_from 0 col t) as Hmin.
  destruct (np_min (where_from 0 col t)) as [e|m]; [done|].
  destruct Hmin as (k & c & -> & Hrest). by exists c.
Qed.

End Lookup.

(** ** Running sums *)

Section Cumsum.
Context {F : Type} `{Scalar F}.
Implicit Types (col : list F).

Lemma cumsum_from_lookup acc col k :
  k < length col →
  cumsum_from acc col !! k = Some (foldl f_add acc (take (S k) col)).
Proof.
  revert acc k. induction col as [|x col IH]; intros acc k Hk; simpl in *;
    [lia|].
  destruct k as [|k]; simpl.
  - done.
  - apply IH. lia.
Qed.

Lemma ndarray_cumsum_lookup col k :
  k < length col →
  ndarray_cumsum col !! k = Some (sum_from_left (take (S k) col)).
Proof.
  destruct col as [|x col]; simpl; [lia|]. intros Hk.
  destruct k as [|k]; simpl.
  - done.
  - apply cumsum_from_lookup. lia.
Qed.

(** An entry of [np.cumsum(col)] that is not NaN is the sum, from the left, of
    the entries up to it, a NaN among them counting as zero. *)
Lemma np_cumsum_lookup col k x :
  col !! k = Some x →
  np_cumsum col !! k
  = Some (if f_isnan x then x
          else sum_from_left (take (S k) (nan_to_zero <$> col))).
Proof.
  intros Hx. unfold np_cumsum.
  rewrite lookup_zip_with, Hx, ndarray_cumsum_lookup; [done|].
  rewrite length_fmap. by eapply lookup_lt_Some.
Qed.

Lemma nan_to_zero_id col :
  Forall (λ x, f_isnan x = false) col → nan_to_zero <$> col = col.
Proof.
  induction 1 as [|x col Hx _ IH]; [done|].
  rewrite fmap_cons, IH. unfold nan_to_zero. by rewrite Hx.
Qed.

End Cumsum.

(** ** The order of [Q] *)

#[export] Instance Q_order : ScalarOrder Q.
Proof.
  split; simpl.
  - intros x y Hxy. apply negb_true_iff in Hxy. apply negb_false_iff.
    apply Qle_bool_iff. apply Qlt_le_weak, Qnot_le_lt.
    intros Hle. apply Qle_bool_iff in Hle. congruence.
  - done.
  - intros x y z _ Hyx Hzy.
    apply negb_false_iff, Qle_bool_iff in Hyx.
    apply negb_false_iff, Qle_bool_iff in Hzy.
    apply negb_false_iff, Qle_bool_iff. by eapply Qle_trans.
Qed.

(** ** The order of binary64 *)

Lemma SFcompare_refl a : a ≠ S754_nan → SFcompare a a = Some Eq.
Proof.
  destruct a as [s|s| |s m e]; try done; simpl; intros _.
  - by destruct s.
  - rewrite Z.compare_refl.
    change (Pos.compare_cont Eq m m) with (Pos.compare m m).
    rewrite Pos.compare_refl. by destruct s.
Qed.

Lemma SFltb_asym a b : SFltb a b = true → SFltb b a = false.
Proof.
  unfold SFltb.
  destruct a as [sa|sa| |sa ma ea], b as [sb|sb| |sb mb eb]; simpl;
    try done; try (by destruct sa); try (by destruct sb);
    try (by destruct sa, sb).
  change (Pos.compare_cont Eq ma mb) with (Pos.compare ma mb).
  change (Pos.compare_cont Eq mb ma) with (Pos.compare mb ma).
  rewrite (Z.compare_antisym ea eb), (Pos.compare_antisym ma mb).
  destruct sa, sb, (ea ?= eb)%Z, (ma ?= mb)%positive; simpl; done.
Qed.

Lemma SFltb_not_trans a b c :
  b ≠ S754_nan → SFltb a b = false → SFltb b c = false → SFltb a c = false.
Proof.
  unfold SFltb.
  destruct a as [sa|sa| |sa ma ea], b as [sb|sb| |sb mb eb],
           c as [sc|sc| |sc mc ec]; simpl; try done;
    try (by destruct sa); try (by destruct sb); try (by destruct sc);
    try (by destruct sa, sb); try (by destruct sb, sc);
    try (by destruct sa, sc); try (by destruct sa, sb, sc).
  all: intros _.
  all: change (Pos.compare_cont Eq ?x ?y) with (Pos.compare x y).
  all: destruct sa, sb, sc; try done.
  all: destruct (Z.compare_spec ea eb), (Z.compare_spec eb ec),
         (Z.compare_spec ea ec); try done; try lia; subst.
  all: destruct (Pos.compare_spec ma mb), (Pos.compare_spec mb mc),
         (Pos.compare_spec ma mc); simpl; try done; try lia.
Qed.

Lemma is_nan_Prim2SF x :
  PrimFloat.is_nan x = true ↔ Prim2SF x = S754_nan.
Proof.
  unfold PrimFloat.is_nan. rewrite negb_true_iff, FloatAxioms.eqb_spec.
  unfold SFeqb. split.
  - intros Hne. destruct (Prim2SF x) as [s|s| |s m e]; [| |done|];
      by rewrite SFcompare_refl in Hne.
  - by intros ->.
Qed.

#[export] Instance float_order : ScalarOrder float.
Proof.
  split; simpl.
  - intros x y. rewrite !ltb_spec. apply SFltb_asym.
  - intros x y Hx. apply is_nan_Prim2SF in Hx.
    rewrite ltb_spec, Hx. unfold SFltb. by destruct (Prim2SF y).
  - intros x y z Hy. rewrite !ltb_spec. apply SFltb_not_trans.
    intros Hnan. apply is_nan_Prim2SF in Hnan. congruence.
Qed.

(** ** Binary64: sums of values that are not negative *)

Section Binary64.
Local Open Scope Z_scope.

Lemma digits2_pos_bounds p :
  2 ^ (Zpos (digits2_pos p) - 1) ≤ Zpos p < 2 ^ Zpos (digits2_pos p).
Proof.
  induction p as [p IH|p IH|]; simpl digits2_pos; [| |by vm_compute].
  - rewrite Pos2Z.inj_succ.
    replace (Z.succ (Zpos (digits2_pos p)) - 1)
      with (Z.succ (Zpos (digits2_pos p) - 1)) by lia.
    rewrite !Z.pow_succ_r by lia. lia.
  - rewrite Pos2Z.inj_succ.
    replace (Z.succ (Zpos (digits2_pos p)) - 1)
      with (Z.succ (Zpos (digits2_pos p) - 1)) by lia.
    rewrite !Z.pow_succ_r by lia. lia.
Qed.

Lemma shr_1_m r : 0 ≤ shr_m r → shr_m (shr_1 r) = shr_m r / 2.
Proof.
  destruct r as [[|[p|p|]|p] b s]; simpl; intros Hm; try lia.
  - done.
  - rewrite (Pos2Z.inj_xI p). apply Z.div_unique with 1; lia.
  - rewrite (Pos2Z.inj_xO p). apply Z.div_unique with 0; lia.
  - done.
Qed.

Lemma iter_shr_1_m p r :
  0 ≤ shr_m r → shr_m (iter_pos shr_1 p r) = shr_m r / 2 ^ Zpos p.
Proof.
  revert r. induction p as [p IH|p IH|]; intros r Hr; simpl iter_pos.
  - assert (H1 : 0 ≤ shr_m (shr_1 r))
      by (rewrite shr_1_m by done; by apply Z.div_pos).
    assert (H2 : 0 ≤ shr_m (iter_pos shr_1 p (shr_1 r)))
      by (rewrite IH by done; apply Z.div_pos; lia).
    rewrite IH, IH, shr_1_m by done.
    rewrite !Z.div_div by lia. f_equal.
    rewrite (Pos2Z.inj_xI p).
    replace (2 * Zpos p + 1) with (1 + Zpos p + Zpos p) by lia.
    rewrite !Z.pow_add_r by lia. lia.
  - assert (H2 : 0 ≤ shr_m (iter_pos shr_1 p r))
      by (rewrite IH by done; apply Z.div_pos; lia).
    rewrite IH, IH by done.
    rewrite !Z.div_div by lia. f_equal.
    rewrite (Pos2Z.inj_xO p).
    replace (2 * Zpos p) with (Zpos p + Zpos p) by lia.
    rewrite !Z.pow_add_r by lia. lia.
  - by apply shr_1_m.
Qed.

Lemma shr_m_shr_record_of_loc m l : shr_m (shr_record_of_loc m l) = m.
Proof. by destruct l as [|[]]. Qed.

Lemma Zdigits2_bounds m :
  0 < m → 2 ^ (Zdigits2 m - 1) ≤ m < 2 ^ Zdigits2 m.
Proof. destruct m as [|p|p]; try lia. intros _. apply digits2_pos_bounds. Qed.


(** Truncation to the precision keeps the weight at or above every number
    of the format that the weight is at or above. *)
Lemma shr_fexp_weight m e l ma ea :
  0 ≤ m → -1074 ≤ e → 0 < ma < 2 ^ 53 → -1074 ≤ ea →
  weight ma ea ≤ weight m e →
  0 ≤ shr_m (shr_fexp prec emax m e l).1 ∧
  -1074 ≤ (shr_fexp prec emax m e l).2 ∧
  weight ma ea ≤ weight (shr_m (shr_fexp prec emax m e l).1)
                        (shr_fexp prec emax m e l).2.
Proof.
  intros Hm He Hma Hea Hle. unfold shr_fexp, shr.
  destruct (fexp prec emax (Zdigits2 m + e) - e) as [|n|n] eqn:Hn; simpl;
    rewrite ?shr_m_shr_record_of_loc; [done| |done].
  rewrite iter_shr_1_m by by rewrite shr_m_shr_record_of_loc.
  rewrite shr_m_shr_record_of_loc.
  assert (Hpos : 0 < m).
  { destruct (Z.eq_dec m 0) as [->|]; [|lia].
    unfold weight in Hle. simpl in Hle.
    assert (0 < 2 ^ (ea + 1074)) by (apply Z.pow_pos_nonneg; lia). nia. }
  pose proof (Zdigits2_bounds m Hpos) as [Hlo Hhi].
  set (d := Zdigits2 m) in *.
  assert (Hd : Zpos n = d - 53 ∧ 0 < d - 53).
  { unfold fexp, emin, prec, emax in Hn. clearbody d. clear -Hn He. lia. }
  destruct Hd as [-> Hd].
  split; [apply Z.div_pos; [lia|apply Z.pow_pos_nonneg; lia]|].
  split; [lia|].
  unfold weight in *.
  replace (e + (d - 53) + 1074) with ((d - 53) + (e + 1074)) by lia.
  rewrite (Z.pow_add_r 2 (d - 53) (e + 1074)) by lia.
  set (W := 2 ^ (e + 1074)) in *.
  assert (HW : 0 < W) by (apply Z.pow_pos_nonneg; lia).
  set (N := 2 ^ (d - 53)) in *.
  assert (HN : 0 < N) by (apply Z.pow_pos_nonneg; lia).
  destruct (Z.le_gt_cases (d + e - 53) ea) as [Hcase|Hcase].
  - (* the number of the format is a multiple of the unit kept *)
    replace (ea + 1074) with ((ea - (d + e - 53)) + ((d - 53) + (e + 1074)))
      in * by lia.
    rewrite !Z.pow_add_r in * by lia. fold W N in Hle |- *.
    set (K := ma * 2 ^ (ea - (d + e - 53))) in *.
    assert (HK : K * N ≤ m) by nia.
    assert (K ≤ m / N) by (apply Z.div_le_lower_bound; lia).
    nia.
  - (* it has fewer digits than what is truncated *)
    assert (H1 : 2 ^ (d - 1) = 2 ^ 52 * N).
    { unfold N. rewrite <- Z.pow_add_r by lia. f_equal. lia. }
    assert (H2 : 2 ^ 52 ≤ m / N).
    { apply Z.div_le_lower_bound; lia. }
    assert (H3 : ma * 2 ^ (ea + 1074) < 2 ^ 52 * N * W).
    { unfold N, W. rewrite <- !Z.pow_add_r by lia.
      assert (2 ^ (ea + 1074) ≤ 2 ^ (d - 53 + (e + 1074) - 1))
        by (apply Z.pow_le_mono_r; lia).
      replace (52 + (d - 53) + (e + 1074))
        with (53 + (d - 53 + (e + 1074) - 1)) by lia.
      rewrite (Z.pow_add_r 2 53) by lia.
      assert (0 < 2 ^ (ea + 1074)) by (apply Z.pow_pos_nonneg; lia).
      nia. }
    nia.
Qed.

Lemma round_nearest_even_ge m l : m ≤ round_nearest_even m l.
Proof. destruct l as [|[]]; simpl; try lia. destruct (Z.even m); lia. Qed.

(** Rounding a positive number keeps it at or above every number of the
    format that it is at or above: the result is finite and not smaller, or
    infinite. *)
Lemma binary_round_aux_ge mx ex lx ma ea :
  0 ≤ mx → -1074 ≤ ex → 0 < ma < 2 ^ 53 → -1074 ≤ ea →
  weight ma ea ≤ weight mx ex →
  binary_round_aux prec emax false mx ex lx = S754_infinity false ∨
  ∃ m e, binary_round_aux prec emax false mx ex lx = S754_finite false m e ∧
         weight ma ea ≤ weight (Zpos m) e.
Proof.
  intros Hmx Hex Hma Hea Hle. unfold binary_round_aux.
  pose proof (shr_fexp_weight mx ex lx ma ea Hmx Hex Hma Hea Hle)
    as (H1 & H2 & H3).
  destruct (shr_fexp prec emax mx ex lx) as [r1 e1]. simpl in H1, H2, H3.
  set (m2 := round_nearest_even (shr_m r1) (loc_of_shr_record r1)).
  assert (Hm2 : shr_m r1 ≤ m2) by apply round_nearest_even_ge.
  assert (Hle2 : weight ma ea ≤ weight m2 e1).
  { unfold weight in *.
    assert (0 < 2 ^ (e1 + 1074)) by (apply Z.pow_pos_nonneg; lia). nia. }
  pose proof (shr_fexp_weight m2 e1 loc_Exact ma ea ltac:(lia) H2 Hma Hea Hle2)
    as (H4 & H5 & H6).
  destruct (shr_fexp prec emax m2 e1 loc_Exact) as [r3 e3].
  simpl in H4, H5, H6.
  destruct (shr_m r3) as [|m|m] eqn:Hm3; [|by case_match; eauto|lia].
  unfold weight in H6. simpl in H6.
  assert (0 < 2 ^ (ea + 1074)) by (apply Z.pow_pos_nonneg; lia). nia.
Qed.

Lemma iter_xO m d : Zpos (Pos.iter xO m d) = Zpos m * 2 ^ Zpos d.
Proof.
  induction d as [|d IH] using Pos.peano_ind.
  - simpl. lia.
  - rewrite Pos.iter_succ, Pos2Z.inj_xO, IH, Pos2Z.inj_succ.
    rewrite Z.pow_succ_r by lia. lia.
Qed.

(** Aligning a mantissa to a lower exponent keeps the weight. *)
Lemma shl_align_weight m e e' :
  -1074 ≤ e' →
  -1074 ≤ (shl_align m e e').2 ∨ -1074 ≤ e → 
  weight (Zpos (shl_align m e e').1) (shl_align m e e').2 = weight (Zpos m) e.
Proof.
  intros He' _. unfold shl_align.
  destruct (e' - e) as [|d|d] eqn:Hd; simpl; [done..|].
  rewrite iter_xO. unfold weight.
  replace (e + 1074) with (Zpos d + (e' + 1074)) by lia.
  rewrite (Z.pow_add_r 2 (Zpos d) (e' + 1074)) by lia. lia.
Qed.

Lemma shl_align_exponent m e e' :
  -1074 ≤ e → -1074 ≤ e' → -1074 ≤ (shl_align m e e').2.
Proof. intros. unfold shl_align. by destruct (e' - e). Qed.

Lemma binary_round_ge mx ex ma ea :
  -1074 ≤ ex → 0 < ma < 2 ^ 53 → -1074 ≤ ea →
  weight ma ea ≤ weight (Zpos mx) ex →
  binary_round prec emax false mx ex = S754_infinity false ∨
  ∃ m e, binary_round prec emax false mx ex = S754_finite false m e ∧
         weight ma ea ≤ weight (Zpos m) e.
Proof.
  intros Hex Hma Hea Hle. unfold binary_round.
  set (t := fexp prec emax (Zpos (digits2_pos mx) + ex)).
  assert (Ht : -1074 ≤ t) by (unfold t, fexp, emin, prec, emax; lia).
  pose proof (shl_align_weight mx ex t Ht (or_intror Hex)) as Hw.
  pose proof (shl_align_exponent mx ex t Hex Ht) as He.
  destruct (shl_align mx ex t) as [mz ez]. simpl in Hw, He.
  apply binary_round_aux_ge; [done|done|done|done|]. by rewrite Hw.
Qed.

(** The numbers of the format: the mantissa has at most 53 digits, and 53
    when the exponent is above the least one. *)
Lemma canonical_mantissa_inv m e :
  canonical_mantissa prec emax m e = true →
  -1074 ≤ e ∧ Zpos m < 2 ^ 53 ∧ (-1074 < e → 2 ^ 52 ≤ Zpos m).
Proof.
  unfold canonical_mantissa. intros Hc. apply Z.eqb_eq in Hc.
  pose proof (digits2_pos_bounds m) as [Hlo Hhi].
  set (d := Zpos (digits2_pos m)) in *.
  unfold fexp, emin, prec, emax in Hc.
  split; [lia|]. split.
  - assert (2 ^ d ≤ 2 ^ 53) by (apply Z.pow_le_mono_r; lia). lia.
  - intros He. assert (d = 53) by lia.
    replace 52 with (d - 1) by lia. done.
Qed.

Lemma valid_binary_inv s m e :
  valid_binary (S754_finite s m e) = true →
  -1074 ≤ e ∧ Zpos m < 2 ^ 53 ∧ (-1074 < e → 2 ^ 52 ≤ Zpos m).
Proof.
  simpl. unfold bounded. intros [Hc _]%andb_true_iff.
  by apply canonical_mantissa_inv.
Qed.

(** Among the numbers of the format the comparison is the one of the
    weights. *)
Lemma SFltb_weight m1 e1 m2 e2 :
  valid_binary (S754_finite false m1 e1) = true →
  valid_binary (S754_finite false m2 e2) = true →
  weight (Zpos m2) e2 ≤ weight (Zpos m1) e1 →
  SFltb (S754_finite false m1 e1) (S754_finite false m2 e2) = false.
Proof.
  intros (He1 & Hm1 & _)%valid_binary_inv (He2 & _ & Hm2)%valid_binary_inv Hle.
  unfold SFltb, SFcompare.
  destruct (Z.compare_spec e1 e2) as [->|Hlt|Hgt]; [| |done].
  - unfold weight in Hle.
    assert (0 < 2 ^ (e2 + 1074)) by (apply Z.pow_pos_nonneg; lia).
    fold (Pos.compare m1 m2).
    destruct (Pos.compare_spec m1 m2); [done|nia|done].
  - exfalso. specialize (Hm2 ltac:(lia)). unfold weight in Hle.
    replace (e2 + 1074) with ((e2 - e1) + (e1 + 1074)) in Hle by lia.
    rewrite Z.pow_add_r in Hle by lia.
    assert (0 < 2 ^ (e1 + 1074)) by (apply Z.pow_pos_nonneg; lia).
    assert (HP : 2 ^ 1 ≤ 2 ^ (e2 - e1)) by (apply Z.pow_le_mono_r; lia).
    set (P := 2 ^ (e2 - e1)) in *. set (W := 2 ^ (e1 + 1074)) in *.
    assert (H1 : Zpos m2 * P ≤ Zpos m1).
    { apply (Z.mul_le_mono_pos_r _ _ W); lia. }
    assert (H2 : 2 ^ 52 * 2 ^ 1 ≤ Zpos m2 * P)
      by (apply Z.mul_le_mono_nonneg; lia).
    change (2 ^ 52 * 2 ^ 1) with (2 ^ 53) in H2. lia.
Qed.

(** The sum of two numbers that are not negative is not negative and not
    less than the first. *)
Lemma SFadd_ge a y :
  valid_binary a = true →
  valid_binary y = true →
  valid_binary (SFadd prec emax a y) = true →
  SF_nonneg a = true → SF_nonneg y = true →
  SF_nonneg (SFadd prec emax a y) = true ∧
  SFltb (SFadd prec emax a y) a = false.
Proof.
  intros Ha Hy Hr Hpa Hpy.
  destruct a as [sa|[]| |[] ma ea], y as [sy|[]| |[] my ey];
    try done; try (by destruct sa, sy); try (by destruct sa); try (by destruct sy).
  - (* a positive, y zero *)
    simpl. split; [done|]. unfold SFltb, SFcompare.
    rewrite Z.compare_refl. fold (Pos.compare ma ma).
    by rewrite Pos.compare_refl.
  - (* both positive *)
    pose proof (valid_binary_inv _ _ _ Ha) as (Hea & Hma & _).
    pose proof (valid_binary_inv _ _ _ Hy) as (Hey & Hmy & _).
    unfold SFadd in *. cbv zeta in *. unfold cond_Zopp in *.
    set (ez := Z.min ea ey) in *.
    pose proof (shl_align_weight ma ea ez ltac:(lia) (or_intror Hea)) as Hwa.
    pose proof (shl_align_weight my ey ez ltac:(lia) (or_intror Hey)) as Hwy.
    assert (Heza : (shl_align ma ea ez).2 = ez).
    { unfold shl_align. destruct (ez - ea) eqn:E; simpl; lia. }
    assert (Hezy : (shl_align my ey ez).2 = ez).
    { unfold shl_align. destruct (ez - ey) eqn:E; simpl; lia. }
    rewrite Heza in Hwa. rewrite Hezy in Hwy.
    destruct (shl_align ma ea ez) as [Ma ?], (shl_align my ey ez) as [My ?].
    simpl in *.
    change (Zpos Ma + Zpos My) with (Zpos (Ma + My)) in *.
    unfold binary_normalize in *.
    destruct (binary_round_ge (Ma + My) ez (Zpos ma) ea)
      as [Hinf|(m & e & Hfin & Hle)]; [lia|lia|done| | |].
    + rewrite <- Hwa. unfold weight. rewrite Pos2Z.inj_add.
      assert (0 < 2 ^ (ez + 1074)) by (apply Z.pow_pos_nonneg; lia). nia.
    + by rewrite Hinf.
    + rewrite Hfin in *. split; [done|]. by apply SFltb_weight.
Qed.

End Binary64.

Lemma Prim2SF_zero : Prim2SF 0 = S754_zero false.
Proof. reflexivity. Qed.

Lemma not_negative_SF x :
  not_negative x = true ↔ SF_nonneg (Prim2SF x) = true.
Proof.
  unfold not_negative. rewrite andb_true_iff, !negb_true_iff, ltb_spec.
  rewrite Prim2SF_zero. split.
  - intros [Hnan Hlt].
    destruct (Prim2SF x) as [s|[]| |[] m e] eqn:E; try done.
    apply is_nan_Prim2SF in E. congruence.
  - intros Hx. split.
    + destruct (PrimFloat.is_nan x) eqn:E; [|done].
      apply is_nan_Prim2SF in E. by rewrite E in Hx.
    + by destruct (Prim2SF x) as [s|[]| |[] m e].
Qed.

Lemma not_negative_not_nan x :
  not_negative x = true → PrimFloat.is_nan x = false.
Proof. unfold not_negative. by intros [?%negb_true_iff _]%andb_true_iff. Qed.

Lemma add_not_negative a y :
  not_negative a = true → not_negative y = true →
  not_negative (a + y) = true ∧ PrimFloat.ltb (a + y) a = false.
Proof.
  rewrite !not_negative_SF, ltb_spec, add_spec. intros Ha Hy.
  apply SFadd_ge; try apply Prim2SF_valid; [|done|done].
  rewrite <- add_spec. apply Prim2SF_valid.
Qed.



Lemma ltb_not_trans x y z :
  PrimFloat.is_nan y = false →
  PrimFloat.ltb x y = false → PrimFloat.ltb y z = false →
  PrimFloat.ltb x z = false.
Proof.
  intros Hy. rewrite !ltb_spec. apply SFltb_not_trans.
  intros Hnan%is_nan_Prim2SF. congruence.
Qed.

(** A running sum of values that are not negative is not negative and not
    less than what it started from. *)
Lemma foldl_add_not_less acc (l : list float) :
  not_negative acc = true → Forall (λ x, not_negative x = true) l →
  not_negative (foldl PrimFloat.add acc l) = true ∧
  PrimFloat.ltb (foldl PrimFloat.add acc l) acc = false.
Proof.
  intros Hacc Hl. revert acc Hacc.
  induction Hl as [|x l Hx _ IH]; intros acc Hacc; simpl.
  - split; [done|]. rewrite ltb_spec.
    apply not_negative_SF in Hacc. unfold SFltb.
    rewrite SFcompare_refl; [done|]. intros E. by rewrite E in Hacc.
  - destruct (add_not_negative acc x Hacc Hx) as [Hsum Hle].
    destruct (IH _ Hsum) as [Hres Hle']. split; [done|].
    eapply ltb_not_trans; [|exact Hle'|exact Hle].
    by apply not_negative_not_nan.
Qed.

Lemma sum_from_left_monotone (l : list float) i j :
  Forall (λ x, not_negative x = true) l → i ≤ j →
  not_negative (sum_from_left (take (S i) l)) = true ∧
  PrimFloat.ltb (sum_from_left (take (S j) l))
                (sum_from_left (take (S i) l)) = false.
Proof.
  intros Hl Hij. destruct Hl as [|x l Hx Hl]; simpl.
  { split; reflexivity. }
  destruct (foldl_add_not_less x (take i l) Hx) as [Hi _];
    [by apply Forall_take|].
  split; [done|].
  replace (take j l) with (take i l ++ drop i (take j l)).
  - rewrite foldl_app. apply foldl_add_not_less; [done|].
    by apply Forall_drop, Forall_take.
  - rewrite <- (take_drop i (take j l)) at 2. f_equal.
    rewrite take_take. f_equal. lia.
Qed.

(** The sign of what rounding returns is the sign it was given. *)
Lemma binary_round_aux_sign s m e l :
  match binary_round_aux prec emax s m e l with
  | S754_zero s' | S754_infinity s' | S754_finite s' _ _ => s' = s
  | S754_nan => True
  end.
Proof.
  unfold binary_round_aux.
  destruct (shr_fexp prec emax m e l) as [r1 e1].
  destruct (shr_fexp prec emax _ e1 loc_Exact) as [r2 e2].
  destruct (shr_m r2); [done| |done].
  by destruct (_ <=? _)%Z.
Qed.

Lemma SFdiv_nonneg x t :
  SF_nonneg x = true → SF_nonneg t = true → t ≠ S754_zero true →
  SFdiv prec emax x t = S754_nan ∨ SF_nonneg (SFdiv prec emax x t) = true.
Proof.
  intros Hx Ht Hzero.
  destruct x as [sx|[]| |[] mx ex], t as [[]|[]| |[] mt et];
    try done; simpl; auto.
  destruct (SFdiv_core_binary _ _ _ _ _ _) as [[mz ez] lz].
  pose proof (binary_round_aux_sign false mz ez lz) as Hs.
  destruct (binary_round_aux prec emax false mz ez lz); subst; auto.
Qed.

Lemma div_not_negative x t :
  not_negative x = true → not_negative t = true →
  Prim2SF t ≠ S754_zero true →
  PrimFloat.is_nan (x / t) = true ∨ not_negative (x / t) = true.
Proof.
  rewrite !not_negative_SF, is_nan_Prim2SF, div_spec.
  apply SFdiv_nonneg.
Qed.

Lemma nan_to_zero_not_negative (x : float) :
  PrimFloat.is_nan x = true ∨ not_negative x = true →
  not_negative (nan_to_zero x) = true.
Proof.
  unfold nan_to_zero. simpl. intros [->|Hx]; [done|].
  by rewrite (not_negative_not_nan _ Hx).
Qed.

Lemma series_sum_not_negative (col : list float) :
  Forall (λ x, not_negative x = true) col →
  not_negative (series_sum col) = true ∧
  Prim2SF (series_sum col) ≠ S754_zero true.
Proof.
  intros Hcol.
  assert (Hsum : not_negative (pairwise_sum (length (nan_to_zero <$> col))
                                 (nan_to_zero <$> col)) = true).
  { apply (pairwise_sum_closed (λ x, not_negative x = true)); [done| |].
    - intros x y Hx Hy. by apply add_not_negative.
    - apply Forall_fmap. eapply Forall_impl; [exact Hcol|].
      intros x Hx. apply nan_to_zero_not_negative. by right. }
  unfold series_sum, ndarray_sum. split.
  - by apply (add_not_negative 0%float).
  - simpl. rewrite add_spec, Prim2SF_zero.
    apply not_negative_SF in Hsum.
    by destruct (Prim2SF (pairwise_sum _ _)) as [[]|[]| |[] m e].
Qed.

(** ** [plot_feature_importances]: the table it returns *)

Lemma zip_col_feature_col_importance {F} (d : DataFrame F) :
  zip (col_feature d) (col_importance d)
  = (λ r, (feature r, importance r)) <$> d.
Proof. induction d as [|r d IH]; csimpl; [done|]. by rewrite <- IH. Qed.

(** C10: the returned table has as many rows as the input, and its
    (feature, importance) pairs are a permutation of the input's: sorting,
    normalising and accumulating add, drop and alter no row. *)
Theorem returned_rows_are_the_input_rows {F} `{Scalar F}
    df n threshold (w : world F) d result w' :
  heap w !! df = Some d →
  plot_feature_importances df n threshold w = (inr result, w') →
  ∃ out,
    heap w' !! result = Some out ∧
    length out = length d ∧
    zip (col_feature out) (col_importance out)
    ≡ₚ zip (col_feature d) (col_importance d).
Proof.
  intros Hd Hrun. exists (built d).
  split; [by eapply plot_feature_importances_returns|].
  split; [apply length_built_input|].
  rewrite col_feature_built, col_importance_built.
  rewrite !zip_col_feature_col_importance.
  by rewrite sort_values_importance_desc_Permutation.
Qed.

Lemma returned_rows_are_the_input_rows_witness :
  ∃ out,
    heap (plot_feature_importances 0 15 None world_Q).2 !! 2 = Some out ∧
    length out = 3 ∧
    zip (col_feature out) (col_importance out)
    ≡ₚ zip (col_feature table_Q) (col_importance table_Q).
Proof.
  apply (returned_rows_are_the_input_rows 0 15 None world_Q table_Q 2).
  - reflexivity.
  - vm_compute. reflexivity.
Defined.

(** C4: the rows of the returned table are in non-increasing order of
    importance, the most important feature first, and its index is
    0 .. len - 1. *)
Theorem returned_rows_are_sorted {F} `{Scalar F} `{!ScalarOrder F}
    df n threshold (w : world F) d result w' :
  heap w !! df = Some d →
  plot_feature_importances df n threshold w = (inr result, w') →
  ∃ out,
    heap w' !! result = Some out ∧
    StronglySorted descending (col_importance out) ∧
    col_index out = Z.of_nat <$> seq 0 (length out).
Proof.
  intros Hd Hrun. exists (built d).
  split; [by eapply plot_feature_importances_returns|].
  split; [|apply col_index_built].
  rewrite col_importance_built. unfold col_importance.
  eapply StronglySorted_fmap; [|apply sort_values_importance_desc_sorted].
  done.
Qed.

Lemma returned_rows_are_sorted_witness :
  ∃ out,
    heap (plot_feature_importances 0 15 None world_18_9_8).2 !! 2
    = Some out ∧
    StronglySorted descending (col_importance out) ∧
    col_index out = Z.of_nat <$> seq 0 (length out).
Proof.
  apply (returned_rows_are_sorted 0 15 None world_18_9_8 table_18_9_8 2).
  - reflexivity.
  - vm_compute. reflexivity.
Defined.

(** C7: the caller's frame is not changed by the call, and neither is any
    other frame of the store: the sort allocates a fresh frame, and the
    columns are added to the fresh frame that is returned. *)
Theorem input_frame_is_unchanged {F} `{Scalar F}
    df n threshold (w : world F) d res w' :
  heap w !! df = Some d →
  plot_feature_importances df n threshold w = (res, w') →
  heap w' !! df = Some d ∧
  (∀ l d0, heap w !! l = Some d0 → heap w' !! l = Some d0) ∧
  (∀ result, res = inr result → heap w !! result = None ∧ result ≠ df).
Proof.
  intros Hd Hrun.
  pose proof (plot_feature_importances_heap _ _ _ _ _ _ _ Hd Hrun) as Hheap.
  assert (Hkeep : ∀ l d0, heap w !! l = Some d0 → heap w' !! l = Some d0).
  { intros l d0 Hl. rewrite Hheap. by apply lookup_app_l_Some. }
  split; [by apply Hkeep|]. split; [done|].
  intros result ->.
  rewrite (plot_feature_importances_result _ _ _ _ _ _ _ Hd Hrun).
  split.
  - apply lookup_ge_None. lia.
  - apply lookup_lt_Some in Hd. lia.
Qed.

Lemma input_frame_is_unchanged_witness :
  heap (plot_feature_importances 0 15 (Some (1 # 2)%Q) world_Q).2 !! 0
  = Some table_Q ∧
  (∀ l d0, heap world_Q !! l = Some d0 →
     heap (plot_feature_importances 0 15 (Some (1 # 2)%Q) world_Q).2 !! l
     = Some d0) ∧
  (∀ result,
     (plot_feature_importances 0 15 (Some (1 # 2)%Q) world_Q).1 = inr result →
     heap world_Q !! result = None ∧ result ≠ 0).
Proof.
  apply (input_frame_is_unchanged 0 15 (Some (1 # 2)%Q) world_Q table_Q).
  - reflexivity.
  - vm_compute. reflexivity.
Defined.

(** ** [plot_feature_importances]: the threshold *)

Lemma bind_ext {F A B} (m : M F A) (k1 k2 : A → M F B) w :
  (∀ a w', k1 a w' = k2 a w') → bind m k1 w = bind m k2 w.
Proof. intros Hk. unfold bind. destruct (m w) as [[e|a] w']; auto. Qed.

(** A threshold that is not truthy is no threshold. *)
Lemma falsy_threshold_is_none {F} `{Scalar F} df n t (w : world F) :
  f_truthy t = false →
  plot_feature_importances df n (Some t) w
  = plot_feature_importances df n None w.
Proof.
  intros Ht. unfold plot_feature_importances.
  repeat (apply bind_ext; intros ? ?). by rewrite Ht.
Qed.

(** C9: with [threshold = 0] (the integer, read exactly), [0.0] or [-0.0]
    the call does what it does without a threshold, same result, same store,
    same figures and printed lines: the line plot and the lookup are
    skipped. *)
Theorem zero_threshold_is_no_threshold :
  (∀ df n (w : world float),
     plot_feature_importances df n (Some 0%float) w
     = plot_feature_importances df n None w) ∧
  (∀ df n (w : world float),
     plot_feature_importances df n (Some (-0)%float) w
     = plot_feature_importances df n None w) ∧
  (∀ df n (w : world Q),
     plot_feature_importances df n (Some 0%Q) w
     = plot_feature_importances df n None w).
Proof.
  repeat split; intros; by apply falsy_threshold_is_none.
Qed.

(** C8, as stated, fails in its example.  The threshold 1.0 is truthy and
    is 1 or more, the table 1, 18, 9 has the total 28, and the call
    completes: the last cumulative entry is above 1 in binary64, so it
    exceeds the threshold, and all three features are reported. *)
Lemma threshold_of_one_completes_in_binary64 :
  ∃ result out cum c,
    f_truthy 1%float = true ∧
    PrimFloat.leb 1 1 = true ∧
    series_sum (col_importance table_18_9_1) = 28%float ∧
    plot_feature_importances 0 15 (Some 1%float) world_18_9_1
    = (inr result,
       (plot_feature_importances 0 15 (Some 1%float) world_18_9_1).2) ∧
    heap (plot_feature_importances 0 15 (Some 1%float) world_18_9_1).2
      !! result = Some out ∧
    col_cumulative_importance out = Some cum ∧
    last cum = Some c ∧
    PrimFloat.ltb 1 c = true ∧
    last (output
            (plot_feature_importances 0 15 (Some 1%float) world_18_9_1).2)
    = Some (PrintRequired 3 1%float).
Proof.
  eexists _, _, _, _.
  split; [vm_compute; reflexivity|].
  split; [vm_compute; reflexivity|].
  split; [vm_compute; reflexivity|].
  split; [vm_compute; reflexivity|].
  split; [vm_compute; reflexivity|].
  split; [vm_compute; reflexivity|].
  split; [vm_compute; reflexivity|].
  split; vm_compute; reflexivity.
Qed.

(** C8, amended: with a truthy threshold the call completes exactly when
    some entry of the cumulative column is greater than the threshold, so it
    raises when no entry is, and the count it prints is the least [k] for
    which the cumulative importance of the first [k] rows is greater than
    the threshold.  [cum] is the cumulative column of the frame the call
    builds, which is in the store whether the call completes or not. *)
Theorem threshold_lookup {F} `{Scalar F} df n t (w : world F) d res w' :
  heap w !! df = Some d →
  f_truthy t = true →
  plot_feature_importances df n (Some t) w = (res, w') →
  ∃ out cum,
    heap w' !! S (length (heap w)) = Some out ∧
    col_cumulative_importance out = Some cum ∧
    ((∃ result, res = inr result)
     ↔ ∃ i c, cum !! i = Some c ∧ f_gtb c t = true) ∧
    (Forall (λ c, f_gtb c t = false) cum → ∃ e, res = inl e) ∧
    (∀ result, res = inr result →
       ∃ k c,
         last (output w') = Some (PrintRequired (S k) t) ∧
         cum !! k = Some c ∧ f_gtb c t = true ∧
         ∀ j c', j < k → cum !! j = Some c' → f_gtb c' t = false).
Proof.
  intros Hd Ht Hrun.
  exists (built d), (cumulative d).
  rewrite (plot_feature_importances_heap _ _ _ _ _ _ _ Hd Hrun).
  split; [apply lookup_built|].
  split; [apply col_cumulative_importance_built|].
  destruct (decide (d = [])) as [->|Hrows].
  { rewrite (plot_feature_importances_empty _ _ _ _ Hd) in Hrun.
    simplify_eq. split; [|split].
    - split; [by intros [? ?]|]. by intros (i & c & Hi & _).
    - eauto.
    - by intros ? ?. }
  rewrite (plot_feature_importances_outcome _ _ _ _ _ Hd Hrows) in Hrun.
  simpl in Hrun. rewrite Ht in Hrun.
  pose proof (np_min_where_gt (cumulative d) t) as Hmin.
  destruct (np_min (np_where_gt (cumulative d) t)) as [e|k];
    simplify_eq.
  - split; [|split].
    + split; [by intros [? ?]|].
      intros (i & c & Hi & Hc).
      eapply Forall_lookup_1 in Hmin; [|exact Hi]. simpl in Hmin. congruence.
    + eauto.
    + by intros ? ?.
  - destruct Hmin as (c & Hk & Hc & Hleast).
    split; [|split].
    + split; eauto.
    + intros Hall. eapply Forall_lookup_1 in Hall; [|exact Hk].
      simpl in Hall. congruence.
    + intros result _. exists k, c. split; [|done].
      simpl. rewrite Nat.add_1_r.
      replace [LinePlot (seq 0 (length d)) (cumulative d);
               VLines (S k); Show; PrintRequired (S k) t]
        with ([LinePlot (seq 0 (length d)) (cumulative d);
               VLines (S k); Show] ++ [PrintRequired (S k) t]) by done.
      rewrite app_assoc. apply last_snoc.
Qed.

Lemma threshold_lookup_witness :
  ∃ out cum,
    heap (plot_feature_importances 0 15 (Some (6 # 10)%Q) world_Q).2
      !! S (length (heap world_Q)) = Some out ∧
    col_cumulative_importance out = Some cum ∧
    ((∃ result,
        (plot_feature_importances 0 15 (Some (6 # 10)%Q) world_Q).1
        = inr result)
     ↔ ∃ i c, cum !! i = Some c ∧ f_gtb c (6 # 10)%Q = true) ∧
    (Forall (λ c, f_gtb c (6 # 10)%Q = false) cum →
     ∃ e, (plot_feature_importances 0 15 (Some (6 # 10)%Q) world_Q).1
          = inl e) ∧
    (∀ result,
       (plot_feature_importances 0 15 (Some (6 # 10)%Q) world_Q).1
       = inr result →
       ∃ k c,
         last (output
                 (plot_feature_importances 0 15 (Some (6 # 10)%Q) world_Q).2)
         = Some (PrintRequired (S k) (6 # 10)%Q) ∧
         cum !! k = Some c ∧ f_gtb c (6 # 10)%Q = true ∧
         ∀ j c', j < k → cum !! j = Some c' → f_gtb c' (6 # 10)%Q = false).
Proof.
  apply (threshold_lookup 0 15 (6 # 10)%Q world_Q table_Q).
  - reflexivity.
  - reflexivity.
  - vm_compute. reflexivity.
Defined.

(** ** [plot_feature_importances]: the two columns it adds *)

(** C3, as stated, fails where the normalized column holds NaN.  The
    importances infinity and 1 have an infinite total: the normalized column
    is NaN, 0.0 and the cumulative column is NaN, 0.0.  The second
    cumulative entry is 0.0, while the first two normalized entries add up
    to NaN; and if the sum is read as pandas adds, skipping NaN, the first
    cumulative entry is NaN where the sum of the first normalized entry
    is 0.0. *)
Lemma cumulative_with_nan_is_not_the_sum :
  ∃ out nrm cum,
    plot_feature_importances 0 15 None world_inf_1
    = (inr 2, (plot_feature_importances 0 15 None world_inf_1).2) ∧
    heap (plot_feature_importances 0 15 None world_inf_1).2 !! 2
    = Some out ∧
    col_importance_normalized out = Some nrm ∧
    col_cumulative_importance out = Some cum ∧
    nrm = [nan; 0%float] ∧
    cum = [nan; 0%float] ∧
    PrimFloat.is_nan (sum_from_left (take 2 nrm)) = true ∧
    series_sum (take 1 nrm) = 0%float.
Proof.
  eexists _, _, _.
  split; [vm_compute; reflexivity|].
  split; [vm_compute; reflexivity|].
  split; [vm_compute; reflexivity|].
  split; [vm_compute; reflexivity|].
  split; [vm_compute; reflexivity|].
  split; [vm_compute; reflexivity|].
  split; vm_compute; reflexivity.
Qed.

(** C3, amended: in the returned table, in its order from most to least
    important, the k-th entry of 'cumulative_importance' is NaN where the
    k-th entry of 'importance_normalized' is NaN, and is otherwise the sum
    of the first k entries of 'importance_normalized', added from the left,
    an entry that is NaN counting as zero; in a column without NaN it is the
    plain sum of the first k entries. *)
Theorem cumulative_is_running_sum {F} `{Scalar F}
    df n threshold (w : world F) d result w' :
  heap w !! df = Some d →
  plot_feature_importances df n threshold w = (inr result, w') →
  ∃ out nrm cum,
    heap w' !! result = Some out ∧
    col_importance_normalized out = Some nrm ∧
    col_cumulative_importance out = Some cum ∧
    length cum = length nrm ∧
    (∀ k x, nrm !! k = Some x → f_isnan x = true → cum !! k = Some x) ∧
    (∀ k x, nrm !! k = Some x → f_isnan x = false →
       cum !! k
       = Some (sum_from_left (take (S k) (nan_to_zero <$> nrm)))) ∧
    (Forall (λ x, f_isnan x = false) nrm →
     ∀ k, k < length nrm →
       cum !! k = Some (sum_from_left (take (S k) nrm))).
Proof.
  intros Hd Hrun. exists (built d), (normalized d), (cumulative d).
  split; [by eapply plot_feature_importances_returns|].
  split; [apply col_importance_normalized_built|].
  split; [apply col_cumulative_importance_built|].
  split; [by rewrite length_cumulative, length_normalized|].
  split; [|split].
  - intros k x Hk Hx. unfold cumulative.
    rewrite (np_cumsum_lookup _ _ _ Hk). by rewrite Hx.
  - intros k x Hk Hx. unfold cumulative.
    rewrite (np_cumsum_lookup _ _ _ Hk). by rewrite Hx.
  - intros Hall k Hk.
    destruct (lookup_lt_is_Some_2 _ _ Hk) as [x Hx].
    unfold cumulative. rewrite (np_cumsum_lookup _ _ _ Hx).
    rewrite (nan_to_zero_id _ Hall).
    eapply Forall_lookup_1 in Hall; [|exact Hx]. simpl in Hall.
    by rewrite Hall.
Qed.

Lemma cumulative_is_running_sum_witness :
  ∃ out nrm cum,
    heap (plot_feature_importances 0 15 None world_inf_1).2 !! 2
    = Some out ∧
    col_importance_normalized out = Some nrm ∧
    col_cumulative_importance out = Some cum ∧
    length cum = length nrm ∧
    (∀ k x, nrm !! k = Some x → f_isnan x = true → cum !! k = Some x) ∧
    (∀ k x, nrm !! k = Some x → f_isnan x = false →
       cum !! k
       = Some (sum_from_left (take (S k) (nan_to_zero <$> nrm)))) ∧
    (Forall (λ x, f_isnan x = false) nrm →
     ∀ k, k < length nrm →
       cum !! k = Some (sum_from_left (take (S k) nrm))).
Proof.
  apply (cumulative_is_running_sum 0 15 None world_inf_1 table_inf_1 2).
  - reflexivity.
  - vm_compute. reflexivity.
Defined.

Lemma col_importance_sorted_frame_Permutation {F} `{Scalar F}
    (d : DataFrame F) :
  col_importance (sorted_frame d) ≡ₚ col_importance d.
Proof.
  unfold sorted_frame, reset_index_drop. rewrite col_importance_relabel.
  unfold col_importance. by rewrite sort_values_importance_desc_Permutation.
Qed.

(** *** The two columns in binary64 *)



Lemma normalized_not_negative (d : DataFrame float) :
  Forall (λ x, not_negative x = true) (col_importance d) →
  Forall (λ x, PrimFloat.is_nan x = true ∨ not_negative x = true)
         (normalized d).
Proof.
  intros Himp.
  assert (Hsorted : Forall (λ x, not_negative x = true)
                           (col_importance (sorted_frame d)))
    by by rewrite col_importance_sorted_frame_Permutation.
  destruct (series_sum_not_negative _ Hsorted) as [Ht Hz].
  unfold normalized, series_div. apply Forall_fmap.
  eapply Forall_impl; [exact Hsorted|]. intros x Hx. simpl.
  by apply div_not_negative.
Qed.

Lemma cumulative_entry (d : DataFrame float) k c :
  cumulative d !! k = Some c →
  ∃ x, normalized d !! k = Some x ∧
       c = if PrimFloat.is_nan x then x
           else sum_from_left (take (S k) (nan_to_zero <$> normalized d)).
Proof.
  intros Hc.
  assert (Hk : k < length (normalized d)).
  { apply lookup_lt_Some in Hc.
    by rewrite length_cumulative, <- length_normalized in Hc. }
  destruct (lookup_lt_is_Some_2 _ _ Hk) as [x Hx]. exists x.
  split; [done|]. unfold cumulative in Hc.
  rewrite (np_cumsum_lookup _ _ _ Hx) in Hc. by simplify_eq.
Qed.

Lemma cumulative_not_negative (d : DataFrame float) :
  Forall (λ x, not_negative x = true) (col_importance d) →
  Forall (λ c, PrimFloat.is_nan c = true ∨ not_negative c = true)
         (cumulative d).
Proof.
  intros Himp. apply Forall_lookup. intros k c Hc.
  destruct (cumulative_entry d k c Hc) as (x & Hx & ->).
  destruct (PrimFloat.is_nan x) eqn:E; [by left|right].
  eapply (sum_from_left_monotone _ k k); [|done].
  apply Forall_fmap. eapply Forall_impl; [by apply normalized_not_negative|].
  intros y Hy. by apply nan_to_zero_not_negative.
Qed.




(** *** Without rounding *)













(** ** [evaluate] *)

Lemma length_DataFrame_of_columns {F} features (importances : list F) out :
  DataFrame_of_columns features importances = inr out →
  length out = length features ∧
  col_feature out = features ∧
  col_importance out = importances.
Proof.
  unfold DataFrame_of_columns, reset_index_drop. case_decide as Hlen; [|done].
  intros [= <-].
  rewrite length_relabel, col_feature_relabel, col_importance_relabel.
  rewrite length_zip_with. split; [lia|].
  revert importances Hlen.
  induction features as [|f features IH]; intros [|i importances] Hlen;
    simplify_eq/=; [done|].
  destruct (IH importances) as [-> ->]; done.
Qed.

Section EvaluateProperties.
Context `{Sklearn}.

(** What a call of [evaluate] that returns has gone through. *)
Lemma evaluate_returns train train_labels test test_labels w preds fi w' :
  evaluate train train_labels test test_labels w = (inr (preds, fi), w') →
  ∃ model X mae_score out,
    fit X train_labels = inr model ∧
    median_absolute_error test_labels preds = inr mae_score ∧
    DataFrame_of_columns (columns train) (feature_importances_ model)
    = inr out ∧
    heap w' !! fi = Some out.
Proof.
  unfold evaluate, bind, lift, emit, alloc, ret. simpl.
  intros Hrun. repeat case_match; simplify_eq/=.
  eexists _, _, _, _. repeat split; eauto.
  apply lookup_last.
Qed.

(** C5: when [evaluate] returns, the predictions it returns are as many as
    the test labels. *)
Theorem predictions_are_as_many_as_test_labels
    train train_labels test test_labels w preds fi w' :
  evaluate train train_labels test test_labels w = (inr (preds, fi), w') →
  length preds = length test_labels.
Proof.
  intros Hrun.
  destruct (evaluate_returns _ _ _ _ _ _ _ _ Hrun)
    as (model & X & mae_score & out & _ & Hmae & _).
  symmetry. by eapply median_absolute_error_consistent.
Qed.

(** C6: when [evaluate] returns, the feature-importance table it returns
    has one row for each column of [train], and pairs the names of the
    columns, in their order, with the importances of the fitted model. *)
Theorem importances_have_a_row_for_each_feature
    train train_labels test test_labels w preds fi w' :
  evaluate train train_labels test test_labels w = (inr (preds, fi), w') →
  ∃ out model X,
    heap w' !! fi = Some out ∧
    length out = length (columns train) ∧
    col_feature out = columns train ∧
    fit X train_labels = inr model ∧
    col_importance out = feature_importances_ model.
Proof.
  intros Hrun.
  destruct (evaluate_returns _ _ _ _ _ _ _ _ Hrun)
    as (model & X & mae_score & out & Hfit & _ & Hframe & Hout).
  apply length_DataFrame_of_columns in Hframe as (Hlen & Hfeat & Himp).
  by exists out, model, X.
Qed.

End EvaluateProperties.

Lemma predictions_are_as_many_as_test_labels_witness :
  let run :=
    @evaluate constant_sklearn train_table [1%float; 2%float; 3%float]
              test_table [4%float; 5%float] empty_world in
  run = (inr ([0%float; 0%float], 0), run.2) ∧
  length [0%float; 0%float] = length [4%float; 5%float].
Proof.
  intros run.
  assert (Hrun : run = (inr ([0%float; 0%float], 0), run.2))
    by (vm_compute; reflexivity).
  split; [exact Hrun|].
  exact (@predictions_are_as_many_as_test_labels constant_sklearn
           train_table [1%float; 2%float; 3%float] test_table
           [4%float; 5%float] empty_world [0%float; 0%float] 0 run.2 Hrun).
Defined.

Lemma importances_have_a_row_for_each_feature_witness :
  let run :=
    @evaluate constant_sklearn train_table [1%float; 2%float; 3%float]
              test_table [4%float; 5%float] empty_world in
  run = (inr ([0%float; 0%float], 0), run.2) ∧
  ∃ out model X,
    heap run.2 !! 0 = Some out ∧
    length out = length (columns train_table) ∧
    col_feature out = columns train_table ∧
    @fit constant_sklearn X [1%float; 2%float; 3%float] = inr model ∧
    col_importance out = @feature_importances_ constant_sklearn model.
Proof.
  intros run.
  assert (Hrun : run = (inr ([0%float; 0%float], 0), run.2))
    by (vm_compute; reflexivity).
  split; [exact Hrun|].
  exact (@importances_have_a_row_for_each_feature constant_sklearn
           train_table [1%float; 2%float; 3%float] test_table
           [4%float; 5%float] empty_world [0%float; 0%float] 0 run.2 Hrun).
Defined.

(** * Further properties *)

(** ** [plot_feature_importances]: figures and printed lines *)

Section Figures.
Context {F : Type} `{Scalar F}.
Implicit Types (w : world F) (d : DataFrame F) (col : list F).

Lemma length_top_bars n d :
  length (take (S n) (zip (col_feature (built d)) (normalized d)))
  = Nat.min (S n) (length d).
Proof.
  rewrite length_take, length_zip_with. unfold col_feature.
  rewrite length_fmap, length_normalized, length_built.
  rewrite length_sorted_frame, length_sort_values_importance_desc. lia.
Qed.

(** [np.min] raises one exception only. *)
Lemma np_min_inl l e :
  np_min l = inl e →
  l = [] ∧
  e = ValueError
        "zero-size array to reduction operation minimum which has no identity".
Proof. destruct l; simpl; by intros [= <-]. Qed.

(** The count that is looked up is at least 1 and at most the number of
    rows. *)
Lemma np_min_where_gt_bound col t i :
  np_min (np_where_gt col t) = inr i → i < length col.
Proof.
  intros Hi. pose proof (np_min_where_gt col t) as Hmin.
  rewrite Hi in Hmin. destruct Hmin as (c & Hc & _).
  by eapply lookup_lt_Some.
Qed.

End Figures.

(** X1: for a table with at least one row, the bar plot titled "Top n"
    shows the rows with labels 0 to n of the sorted table, the end included:
    n + 1 bars when the table has that many rows, all rows otherwise, each
    bar a feature with its normalized importance.  It is drawn first,
    whatever becomes of the call afterwards. *)
Theorem bar_plot_shows_n_plus_one_rows {F} `{Scalar F}
    df n threshold (w : world F) d res w' :
  heap w !! df = Some d →
  d ≠ [] →
  plot_feature_importances df n threshold w = (res, w') →
  ∃ out nrm bars rest,
    heap w' !! S (length (heap w)) = Some out ∧
    col_importance_normalized out = Some nrm ∧
    output w' = output w ++ BarPlot n bars :: rest ∧
    bars = take (S n) (zip (col_feature out) nrm) ∧
    length bars = Nat.min (S n) (length d).
Proof.
  intros Hd Hrows Hrun.
  exists (built d), (normalized d),
         (take (S n) (zip (col_feature (built d)) (normalized d))).
  rewrite (plot_feature_importances_outcome _ _ _ _ _ Hd Hrows) in Hrun.
  simpl in Hrun.
  destruct threshold as [t|]; [destruct (f_truthy t)|];
    [destruct (np_min _)|..]; simplify_eq; simpl;
    eexists; (split; [apply lookup_built|]);
    (split; [apply col_importance_normalized_built|]);
    (split; [first [done|by rewrite <- app_assoc]|]);
    (split; [done|apply length_top_bars]).
Qed.

Lemma bar_plot_shows_n_plus_one_rows_witness :
  ∃ out nrm bars rest,
    heap (plot_feature_importances 0 1 None world_18_9_8).2
      !! S (length (heap world_18_9_8)) = Some out ∧
    col_importance_normalized out = Some nrm ∧
    output (plot_feature_importances 0 1 None world_18_9_8).2
    = output world_18_9_8 ++ BarPlot 1 bars :: rest ∧
    bars = take 2 (zip (col_feature out) nrm) ∧
    length bars = Nat.min 2 (length table_18_9_8).
Proof.
  apply (bar_plot_shows_n_plus_one_rows 0 1 None world_18_9_8 table_18_9_8
           (plot_feature_importances 0 1 None world_18_9_8).1).
  - reflexivity.
  - discriminate.
  - vm_compute. reflexivity.
Defined.

(** X2: without a threshold, or with one that is not truthy, no operation on
    the table raises, whatever the importances of a table with at least one
    row are (a zero total, NaN, negative values): the call returns, and it
    draws the bar plot and nothing else.  Drawing is taken to succeed. *)
Theorem call_without_threshold_draws_one_figure {F} `{Scalar F}
    df n threshold (w : world F) d :
  heap w !! df = Some d →
  d ≠ [] →
  threshold = None ∨ (∃ t, threshold = Some t ∧ f_truthy t = false) →
  ∃ result w' bars,
    plot_feature_importances df n threshold w = (inr result, w') ∧
    output w' = output w ++ [BarPlot n bars].
Proof.
  intros Hd Hrows Hthreshold.
  rewrite (plot_feature_importances_outcome _ _ _ _ _ Hd Hrows). simpl.
  destruct Hthreshold as [->|(t & -> & ->)]; by eexists _, _, _.
Qed.

Lemma call_without_threshold_draws_one_figure_witness :
  ∃ result w' bars,
    plot_feature_importances 0 15 (Some 0%float) world_18_9_8
    = (inr result, w') ∧
    output w' = output world_18_9_8 ++ [BarPlot 15 bars].
Proof.
  apply (call_without_threshold_draws_one_figure
           0 15 (Some 0%float) world_18_9_8 table_18_9_8).
  - reflexivity.
  - discriminate.
  - right. by exists 0%float.
Defined.

(** X3: for a table with at least one row and a truthy threshold, the
    figures and the printed line come in one order.  When the lookup succeeds: the bar plot, the line plot of the
    cumulative column over 0 .. len - 1, the vertical line at the count,
    [plt.show()], and the printed count, which is the one of the vertical
    line and lies between 1 and the number of rows.  When no entry exceeds
    the threshold the [ValueError] of [np.min] is raised after both plots
    were drawn: nothing is shown or printed. *)
Theorem call_with_threshold_effects {F} `{Scalar F}
    df n t (w : world F) d res w' :
  heap w !! df = Some d →
  d ≠ [] →
  f_truthy t = true →
  plot_feature_importances df n (Some t) w = (res, w') →
  ∃ out cum bars,
    heap w' !! S (length (heap w)) = Some out ∧
    col_cumulative_importance out = Some cum ∧
    match res with
    | inr _ =>
        ∃ k, 1 ≤ k ≤ length d ∧
          output w'
          = output w ++ [BarPlot n bars; LinePlot (seq 0 (length d)) cum;
                         VLines k; Show; PrintRequired k t]
    | inl e =>
        e = ValueError
          "zero-size array to reduction operation minimum which has no identity"
        ∧ output w'
          = output w ++ [BarPlot n bars; LinePlot (seq 0 (length d)) cum]
    end.
Proof.
  intros Hd Hrows Ht Hrun. exists (built d), (cumulative d).
  rewrite (plot_feature_importances_outcome _ _ _ _ _ Hd Hrows) in Hrun.
  simpl in Hrun. rewrite Ht in Hrun.
  destruct (np_min (np_where_gt (cumulative d) t)) as [e|i] eqn:Hmin;
    simplify_eq; simpl; eexists;
    (split; [apply lookup_built|]);
    (split; [apply col_cumulative_importance_built|]).
  - apply np_min_inl in Hmin as [_ ->]. split; [done|].
    by rewrite <- app_assoc.
  - exists (i + 1). split; [|by rewrite <- app_assoc].
    apply np_min_where_gt_bound in Hmin.
    rewrite length_cumulative, length_sorted_frame,
            length_sort_values_importance_desc in Hmin. lia.
Qed.

Lemma call_with_threshold_effects_witness :
  ∃ out cum bars,
    heap (plot_feature_importances 0 15 (Some 2%float) world_18_9_8).2
      !! S (length (heap world_18_9_8)) = Some out ∧
    col_cumulative_importance out = Some cum ∧
    match (plot_feature_importances 0 15 (Some 2%float) world_18_9_8).1 with
    | inr _ =>
        ∃ k, 1 ≤ k ≤ length table_18_9_8 ∧
          output (plot_feature_importances 0 15 (Some 2%float)
                    world_18_9_8).2
          = output world_18_9_8
            ++ [BarPlot 15 bars;
                LinePlot (seq 0 (length table_18_9_8)) cum;
                VLines k; Show; PrintRequired k 2%float]
    | inl e =>
        e = ValueError
          "zero-size array to reduction operation minimum which has no identity"
        ∧ output (plot_feature_importances 0 15 (Some 2%float)
                    world_18_9_8).2
          = output world_18_9_8
            ++ [BarPlot 15 bars;
                LinePlot (seq 0 (length table_18_9_8)) cum]
    end.
Proof.
  apply (call_with_threshold_effects 0 15 2%float world_18_9_8 table_18_9_8).
  - reflexivity.
  - discriminate.
  - reflexivity.
  - vm_compute. reflexivity.
Defined.

(** ** [plot_feature_importances]: a table without rows *)



(** ** [plot_feature_importances]: a zero total *)

Section NaNColumns.
Context {F : Type} `{Scalar F}.
Implicit Types (col : list F).

(** The running sum of a column of NaN is the column. *)
Lemma np_cumsum_all_nan col :
  Forall (λ x, f_isnan x = true) col → np_cumsum col = col.
Proof.
  intros Hnan. unfold np_cumsum.
  assert (Hlen : length (ndarray_cumsum (nan_to_zero <$> col)) = length col)
    by by rewrite length_ndarray_cumsum, length_fmap.
  revert Hlen. generalize (ndarray_cumsum (nan_to_zero <$> col)).
  induction Hnan as [|x col Hx _ IH]; intros [|c sums] Hlen;
    simplify_eq/=; [done|].
  by rewrite Hx, IH.
Qed.

Lemma where_from_none i col t :
  Forall (λ c, f_gtb c t = false) col → where_from i col t = [].
Proof.
  intros Hall. revert i.
  induction Hall as [|c col Hc _ IH]; intros i; simpl; [done|].
  by rewrite Hc.
Qed.

End NaNColumns.

Lemma series_sum_zeros k : series_sum (replicate k 0%float) = 0%float.
Proof.
  apply (series_sum_closed (λ x, x = 0%float)); [done|by intros x y -> ->|].
  rewrite fmap_replicate. by apply Forall_replicate.
Qed.

Lemma normalized_of_zeros (d : DataFrame float) :
  Forall (λ x, x = 0%float) (col_importance d) →
  normalized d = replicate (length d) nan.
Proof.
  intros Hzero.
  assert (Hsorted : col_importance (sorted_frame d)
                    = replicate (length d) 0%float).
  { symmetry. apply replicate_as_Forall. split.
    - unfold col_importance.
      by rewrite length_fmap, length_sorted_frame,
                 length_sort_values_importance_desc.
    - rewrite col_importance_sorted_frame_Permutation.
      eapply Forall_impl; [exact Hzero|]. by intros x ->. }
  unfold normalized. rewrite Hsorted, series_sum_zeros.
  unfold series_div. by rewrite fmap_replicate.
Qed.

(** X4: in binary64 a table whose importances are all 0.0 is divided by a
    total of 0.0 without any exception: every entry of
    'importance_normalized' and of 'cumulative_importance' is NaN.  The call
    returns such a table when it is given no truthy threshold, and raises
    the [ValueError] of [np.min] when it is given one, since NaN exceeds no
    threshold. *)
Theorem zero_importances_give_nan_columns
    df n threshold (w : world float) d res w' :
  heap w !! df = Some d →
  d ≠ [] →
  Forall (λ x, x = 0%float) (col_importance d) →
  plot_feature_importances df n threshold w = (res, w') →
  ∃ out,
    heap w' !! S (length (heap w)) = Some out ∧
    col_importance_normalized out = Some (replicate (length d) nan) ∧
    col_cumulative_importance out = Some (replicate (length d) nan) ∧
    match threshold with
    | Some t =>
        if f_truthy t
        then res = inl (ValueError
          "zero-size array to reduction operation minimum which has no identity")
        else res = inr (S (length (heap w)))
    | None => res = inr (S (length (heap w)))
    end.
Proof.
  intros Hd Hrows Hzero Hrun. exists (built d).
  pose proof (normalized_of_zeros d Hzero) as Hnrm.
  assert (Hnan : Forall (λ x, f_isnan x = true)
                        (replicate (length d) nan))
    by by apply Forall_replicate.
  assert (Hcum : cumulative d = replicate (length d) nan).
  { unfold cumulative. rewrite Hnrm. by apply np_cumsum_all_nan. }
  rewrite (plot_feature_importances_heap _ _ _ _ _ _ _ Hd Hrun).
  split; [apply lookup_built|].
  split; [by rewrite col_importance_normalized_built, Hnrm|].
  split; [by rewrite col_cumulative_importance_built, Hcum|].
  rewrite (plot_feature_importances_outcome _ _ _ _ _ Hd Hrows) in Hrun.
  cbv zeta in Hrun.
  destruct threshold as [t|]; [|by simplify_eq].
  destruct (f_truthy t) eqn:Ht; [|by simplify_eq].
  unfold np_where_gt in Hrun. rewrite where_from_none in Hrun.
  - simpl in Hrun. by simplify_eq.
  - rewrite Hcum. apply Forall_replicate.
    by apply (f_gtb_nan (F := float)).
Qed.

Lemma zero_importances_give_nan_columns_witness :
  ∃ out,
    heap (plot_feature_importances 0 15 (Some 0.5%float) world_zero).2
      !! S (length (heap world_zero)) = Some out ∧
    col_importance_normalized out
    = Some (replicate (length table_zero) nan) ∧
    col_cumulative_importance out
    = Some (replicate (length table_zero) nan) ∧
    (if f_truthy 0.5%float
     then (plot_feature_importances 0 15 (Some 0.5%float) world_zero).1
          = inl (ValueError
          "zero-size array to reduction operation minimum which has no identity")
     else (plot_feature_importances 0 15 (Some 0.5%float) world_zero).1
          = inr (S (length (heap world_zero)))).
Proof.
  apply (zero_importances_give_nan_columns
           0 15 (Some 0.5%float) world_zero table_zero).
  - reflexivity.
  - discriminate.
  - repeat constructor.
  - vm_compute. reflexivity.
Defined.

(** ** [plot_feature_importances]: shares *)

(** X5: for a table whose importances are not NaN and not negative, no
    entry of 'importance_normalized' and no entry of 'cumulative_importance'
    is negative: each is NaN (as after a division of zero by zero or of
    infinity by infinity) or a number that is not less than zero. *)
Theorem shares_are_not_negative
    df n threshold (w : world float) d result w' out nrm cum :
  heap w !! df = Some d →
  Forall (λ x, not_negative x = true) (col_importance d) →
  plot_feature_importances df n threshold w = (inr result, w') →
  heap w' !! result = Some out →
  col_importance_normalized out = Some nrm →
  col_cumulative_importance out = Some cum →
  Forall (λ x, PrimFloat.is_nan x = true ∨ not_negative x = true) nrm ∧
  Forall (λ c, PrimFloat.is_nan c = true ∨ not_negative c = true) cum.
Proof.
  intros Hd Himp Hrun Hout Hnrm Hcum.
  rewrite (plot_feature_importances_returns _ _ _ _ _ _ _ Hd Hrun) in Hout.
  simplify_eq. rewrite col_importance_normalized_built in Hnrm.
  rewrite col_cumulative_importance_built in Hcum. simplify_eq.
  split; [by apply normalized_not_negative|by apply cumulative_not_negative].
Qed.

Lemma shares_are_not_negative_witness :
  Forall (λ x, PrimFloat.is_nan x = true ∨ not_negative x = true)
         [nan; 0%float] ∧
  Forall (λ c, PrimFloat.is_nan c = true ∨ not_negative c = true)
         [nan; 0%float].
Proof.
  apply (shares_are_not_negative
           0 15 None world_inf_1 table_inf_1 2
           (plot_feature_importances 0 15 None world_inf_1).2
           [mkRow 0 "quantity" infinity (Some nan) (Some nan);
            mkRow 1 "price" 1%float (Some 0%float) (Some 0%float)]).
  - reflexivity.
  - repeat constructor.
  - vm_compute. reflexivity.
  - vm_compute. reflexivity.
  - reflexivity.
  - reflexivity.
Defined.

(** ** [plot_feature_importances]: two thresholds *)

Section Thresholds.
Context {F : Type} `{Scalar F} `{!ScalarOrder F}.
Implicit Types (w : world F) (d : DataFrame F).

(** What exceeds a threshold exceeds every threshold that is not greater. *)
Lemma f_gtb_lower (c t1 t2 : F) :
  f_isnan t1 = false → f_gtb t1 t2 = false →
  f_gtb c t2 = true → f_gtb c t1 = true.
Proof.
  intros Hnan H12 Hc. destruct (f_gtb c t1) eqn:Hc1; [done|].
  rewrite (f_gtb_trans t2 t1 c Hnan H12 Hc1) in Hc. done.
Qed.

(** X7: when the call completes with a threshold, it completes with every
    truthy threshold that is not greater (and is not NaN), and the count it
    prints for the lower threshold is not greater: fewer or as many features
    are needed to pass a lower threshold. *)
Theorem lower_threshold_needs_no_more_features
    df n t1 t2 w d result2 w2 :
  heap w !! df = Some d →
  f_truthy t1 = true → f_truthy t2 = true →
  f_isnan t1 = false → f_gtb t1 t2 = false →
  plot_feature_importances df n (Some t2) w = (inr result2, w2) →
  ∃ result1 w1 k1 k2,
    plot_feature_importances df n (Some t1) w = (inr result1, w1) ∧
    last (output w1) = Some (PrintRequired k1 t1) ∧
    last (output w2) = Some (PrintRequired k2 t2) ∧
    k1 ≤ k2.
Proof.
  intros Hd Ht1 Ht2 Hnan H12 Hrun2.
  assert (Hrows : d ≠ []).
  { intros ->.
    by rewrite (plot_feature_importances_empty _ _ _ _ Hd) in Hrun2. }
  rewrite (plot_feature_importances_outcome _ _ _ _ _ Hd Hrows) in Hrun2.
  rewrite (plot_feature_importances_outcome _ _ _ _ _ Hd Hrows).
  cbv zeta in *. rewrite Ht2 in Hrun2. rewrite Ht1.
  pose proof (np_min_where_gt (cumulative d) t2) as Hmin2.
  pose proof (np_min_where_gt (cumulative d) t1) as Hmin1.
  destruct (np_min (np_where_gt (cumulative d) t2)) as [e2|i2];
    simplify_eq.
  destruct Hmin2 as (c2 & Hi2 & Hc2 & _).
  pose proof (f_gtb_lower c2 t1 t2 Hnan H12 Hc2) as Hc21.
  destruct (np_min (np_where_gt (cumulative d) t1)) as [e1|i1].
  - eapply Forall_lookup_1 in Hmin1; [|exact Hi2]. simpl in Hmin1.
    congruence.
  - destruct Hmin1 as (c1 & Hi1 & Hc1 & Hleast).
    eexists _, _, (i1 + 1), (i2 + 1).
    split; [done|]. simpl.
    split; [|split].
    + by rewrite last_app.
    + by rewrite last_app.
    + destruct (decide (i2 < i1)) as [Hlt|]; [|lia].
      rewrite (Hleast i2 c2 Hlt Hi2) in Hc21. done.
Qed.

End Thresholds.

Lemma lower_threshold_needs_no_more_features_witness :
  ∃ result1 w1 k1 k2,
    plot_feature_importances 0 15 (Some 0.5%float) world_18_9_8
    = (inr result1, w1) ∧
    last (output w1) = Some (PrintRequired k1 0.5%float) ∧
    last (output
            (plot_feature_importances 0 15 (Some 0.75%float)
               world_18_9_8).2)
    = Some (PrintRequired k2 0.75%float) ∧
    k1 ≤ k2.
Proof.
  apply (lower_threshold_needs_no_more_features
           0 15 0.5%float 0.75%float world_18_9_8 table_18_9_8 2).
  - reflexivity.
  - reflexivity.
  - reflexivity.
  - reflexivity.
  - reflexivity.
  - vm_compute. reflexivity.
Defined.

(** ** [plot_feature_importances]: what of the input is read *)

Section Inputs.
Context {F : Type} `{Scalar F}.
Implicit Types (w : world F) (d rows : DataFrame F) (r : Row F).

Section Relabelled.
(** A change of the rows that keeps their feature and importance. *)
Variable g : Row F → Row F.
Hypothesis g_feature : ∀ r, feature (g r) = feature r.
Hypothesis g_importance : ∀ r, importance (g r) = importance r.

Lemma insert_desc_fmap r rows :
  insert_desc (g r) (g <$> rows) = g <$> insert_desc r rows.
Proof.
  induction rows as [|x rows IH]; csimpl; [done|].
  rewrite !g_importance.
  destruct (f_gtb (importance r) (importance x)); csimpl; [done|].
  by rewrite IH.
Qed.

Lemma foldl_insert_desc_fmap rows acc :
  foldl (λ sorted r, insert_desc r sorted) (g <$> acc) (g <$> rows)
  = g <$> foldl (λ sorted r, insert_desc r sorted) acc rows.
Proof.
  revert acc. induction rows as [|x rows IH]; intros acc; csimpl; [done|].
  by rewrite insert_desc_fmap, IH.
Qed.

Lemma filter_isnan_fmap b rows :
  filter (λ r, f_isnan (importance r) = b) (g <$> rows)
  = g <$> filter (λ r, f_isnan (importance r) = b) rows.
Proof.
  induction rows as [|x rows IH]; csimpl; [done|].
  rewrite !filter_cons, g_importance, IH. by case_decide.
Qed.

Lemma sort_values_importance_desc_fmap d :
  sort_values_importance_desc (g <$> d)
  = g <$> sort_values_importance_desc d.
Proof.
  unfold sort_values_importance_desc, sort_desc.
  rewrite !filter_isnan_fmap, fmap_app.
  by rewrite <- foldl_insert_desc_fmap.
Qed.

Lemma col_importance_fmap d : col_importance (g <$> d) = col_importance d.
Proof.
  unfold col_importance. rewrite <- list_fmap_compose.
  apply list_fmap_ext. intros _ r _. apply g_importance.
Qed.

Lemma set_columns_relabel_fmap i rows (nrm cum : list F) :
  zip_with set_cumulative_importance
    (zip_with set_importance_normalized (relabel i (g <$> rows)) nrm) cum
  = zip_with set_cumulative_importance
      (zip_with set_importance_normalized (relabel i rows) nrm) cum.
Proof.
  revert i nrm cum.
  induction rows as [|r rows IH]; intros i [|x nrm] [|c cum]; csimpl;
    try done.
  rewrite IH. unfold set_cumulative_importance, set_importance_normalized.
  simpl. by rewrite g_feature, g_importance.
Qed.

Lemma built_fmap d : built (g <$> d) = built d.
Proof.
  unfold built, cumulative, normalized, sorted_frame, reset_index_drop.
  rewrite !col_importance_relabel, sort_values_importance_desc_fmap.
  rewrite col_importance_fmap. apply set_columns_relabel_fmap.
Qed.

End Relabelled.

Lemma built_of_pairs d1 d2 :
  zip (col_feature d1) (col_importance d1)
  = zip (col_feature d2) (col_importance d2) →
  built d1 = built d2.
Proof.
  intros Hpairs.
  set (g := λ r : Row F, mkRow 0 (feature r) (importance r) None None).
  rewrite <- (built_fmap g (λ _, eq_refl) (λ _, eq_refl) d1).
  rewrite <- (built_fmap g (λ _, eq_refl) (λ _, eq_refl) d2).
  f_equal.
  assert (Hg : ∀ d, g <$> d
                    = (λ p, mkRow 0 p.1 p.2 None None)
                      <$> zip (col_feature d) (col_importance d)).
  { intros d. rewrite zip_col_feature_col_importance.
    by rewrite <- list_fmap_compose. }
  by rewrite !Hg, Hpairs.
Qed.

(** X8: the returned table is a function of the (feature, importance) pairs
    of the input rows, in their order: the index labels of the input are
    dropped, and columns named 'importance_normalized' and
    'cumulative_importance' that the input already has are overwritten. *)
Theorem returned_table_reads_feature_and_importance_only
    df1 df2 n1 n2 threshold1 threshold2 w1 w2 d1 d2
    result1 result2 w1' w2' :
  heap w1 !! df1 = Some d1 →
  heap w2 !! df2 = Some d2 →
  zip (col_feature d1) (col_importance d1)
  = zip (col_feature d2) (col_importance d2) →
  plot_feature_importances df1 n1 threshold1 w1 = (inr result1, w1') →
  plot_feature_importances df2 n2 threshold2 w2 = (inr result2, w2') →
  ∃ out,
    heap w1' !! result1 = Some out ∧ heap w2' !! result2 = Some out.
Proof.
  intros Hd1 Hd2 Hpairs Hrun1 Hrun2. exists (built d1).
  split; [by eapply plot_feature_importances_returns|].
  rewrite (built_of_pairs d1 d2 Hpairs).
  by eapply plot_feature_importances_returns.
Qed.

End Inputs.

Lemma returned_table_reads_feature_and_importance_only_witness :
  ∃ out,
    heap (plot_feature_importances 0 15 None world_Q).2 !! 2 = Some out ∧
    heap (plot_feature_importances 0 1 (Some (1 # 2)%Q) world_Q_again).2 !! 2
    = Some out.
Proof.
  apply (returned_table_reads_feature_and_importance_only
           0 0 15 1 None (Some (1 # 2)%Q) world_Q world_Q_again
           table_Q table_Q_again 2 2).
  - reflexivity.
  - reflexivity.
  - reflexivity.
  - vm_compute. reflexivity.
  - vm_compute. reflexivity.
Defined.

(** ** [evaluate]: the store and the printed lines *)

Lemma inf_to_nan_not_infinite x : PrimFloat.is_infinity (inf_to_nan x) = false.
Proof.
  unfold inf_to_nan. destruct (PrimFloat.is_infinity x) eqn:Hx; [|done].
  reflexivity.
Qed.

Lemma inf_to_nan_idempotent x : inf_to_nan (inf_to_nan x) = inf_to_nan x.
Proof.
  unfold inf_to_nan at 1. by rewrite inf_to_nan_not_infinite.
Qed.

Lemma replace_inf_idempotent t : replace_inf (replace_inf t) = replace_inf t.
Proof.
  unfold replace_inf. simpl. f_equal.
  rewrite <- list_fmap_compose. apply list_fmap_ext. intros _ row _. simpl.
  rewrite <- list_fmap_compose. apply list_fmap_ext. intros _ x _.
  apply inf_to_nan_idempotent.
Qed.

Section EvaluateEffects.
Context `{Sklearn}.

(** X9: a call of [evaluate] that raises leaves the store as it was; it has
    printed nothing, or both lines when it is the construction of the
    importance table that failed.  A call that returns has printed the two
    lines, the cross-validation one first, and has added one frame to the
    store, the returned importance table, at a fresh location; the frames
    that were in the store are untouched. *)
Theorem evaluate_effects train train_labels test test_labels w res w' :
  evaluate train train_labels test test_labels w = (res, w') →
  match res with
  | inr (preds, fi) =>
      heap w !! fi = None ∧
      ∃ frame cv_score mae_score,
        heap w' = heap w ++ [frame] ∧
        heap w' !! fi = Some frame ∧
        output w' = output w ++ [PrintCV cv_score; PrintMAE mae_score]
  | inl e =>
      heap w' = heap w ∧
      (output w' = output w ∨
       ∃ cv_score mae_score,
         output w' = output w ++ [PrintCV cv_score; PrintMAE mae_score])
  end.
Proof.
  unfold evaluate, bind, lift, emit, alloc, ret. simpl.
  intros Hrun. repeat case_match; simplify_eq/=; eauto.
  - split; [done|]. right. eexists _, _. by rewrite <- app_assoc.
  - split; [apply lookup_ge_None; lia|].
    eexists _, _, _. split; [done|]. split; [apply lookup_last|].
    by rewrite <- app_assoc.
Qed.

(** X10: infinite cells are read as missing ones.  [evaluate] gives the
    outcome it gives on the tables in which every infinity is replaced by
    NaN beforehand, and in those tables no cell is infinite while the column
    names are the ones of the input. *)
Theorem evaluate_reads_infinity_as_nan :
  (∀ train train_labels test test_labels w,
     evaluate train train_labels test test_labels w
     = evaluate (replace_inf train) train_labels (replace_inf test)
                test_labels w) ∧
  (∀ t,
     columns (replace_inf t) = columns t ∧
     length (values (replace_inf t)) = length (values t) ∧
     Forall (Forall (λ x, PrimFloat.is_infinity x = false))
            (values (replace_inf t))).
Proof.
  split.
  - intros. unfold evaluate. by rewrite !replace_inf_idempotent.
  - intros t. unfold replace_inf. simpl.
    split; [done|]. split; [by rewrite length_fmap|].
    apply Forall_fmap, Forall_forall. intros row _. simpl.
    apply Forall_fmap, Forall_forall. intros x _.
    apply inf_to_nan_not_infinite.
Qed.

(** X11: the importance table that [evaluate] returns can be handed to
    [plot_feature_importances]: without a threshold the call returns a table
    with one row for each column of [train], the same features in the order
    of their importance, under the index 0 .. len - 1, and the table of
    [evaluate] is still in the store as it was. *)
Theorem importances_of_evaluate_can_be_plotted
    train train_labels test test_labels w preds fi w1 n :
  evaluate train train_labels test test_labels w = (inr (preds, fi), w1) →
  columns train ≠ [] →
  ∃ result w2 out,
    plot_feature_importances fi n None w1 = (inr result, w2) ∧
    heap w2 !! result = Some out ∧
    length out = length (columns train) ∧
    col_feature out ≡ₚ columns train ∧
    StronglySorted descending (col_importance out) ∧
    col_index out = Z.of_nat <$> seq 0 (length out) ∧
    heap w2 !! fi = heap w1 !! fi.
Proof.
  intros Hrun Hcolumns.
  destruct (evaluate_returns _ _ _ _ _ _ _ _ Hrun)
    as (model & X & mae_score & d & _ & _ & Hframe & Hd).
  apply length_DataFrame_of_columns in Hframe as (Hlen & Hfeat & _).
  assert (Hrows : d ≠ []) by (intros ->; by rewrite <- Hfeat in Hcolumns).
  pose proof (plot_feature_importances_outcome fi n None w1 d Hd Hrows)
    as Hplot.
  cbv zeta in Hplot.
  eexists _, _, (built d). split; [exact Hplot|]. simpl.
  split; [apply lookup_built|].
  split; [by rewrite length_built_input|].
  split.
  { rewrite col_feature_built. unfold col_feature.
    rewrite sort_values_importance_desc_Permutation. by rewrite <- Hfeat. }
  split.
  { rewrite col_importance_built. unfold col_importance.
    eapply StronglySorted_fmap; [|apply sort_values_importance_desc_sorted].
    done. }
  split; [apply col_index_built|].
  rewrite Hd. by apply lookup_app_l_Some.
Qed.

End EvaluateEffects.

Lemma evaluate_effects_witness :
  let run :=
    @evaluate constant_sklearn train_table [1%float; 2%float; 3%float]
              test_table [4%float; 5%float] empty_world in
  match run.1 with
  | inr (preds, fi) =>
      heap empty_world !! fi = None ∧
      ∃ frame cv_score mae_score,
        heap run.2 = heap empty_world ++ [frame] ∧
        heap run.2 !! fi = Some frame ∧
        output run.2
        = output empty_world ++ [PrintCV cv_score; PrintMAE mae_score]
  | inl e =>
      heap run.2 = heap empty_world ∧
      (output run.2 = output empty_world ∨
       ∃ cv_score mae_score,
         output run.2
         = output empty_world ++ [PrintCV cv_score; PrintMAE mae_score])
  end.
Proof.
  intros run.
  apply (@evaluate_effects constant_sklearn train_table
           [1%float; 2%float; 3%float] test_table [4%float; 5%float]
           empty_world run.1 run.2).
  vm_compute. reflexivity.
Defined.

Lemma importances_of_evaluate_can_be_plotted_witness :
  let run :=
    @evaluate constant_sklearn train_table [1%float; 2%float; 3%float]
              test_table [4%float; 5%float] empty_world in
  ∃ result w2 out,
    plot_feature_importances 0 15 None run.2 = (inr result, w2) ∧
    heap w2 !! result = Some out ∧
    length out = length (columns train_table) ∧
    col_feature out ≡ₚ columns train_table ∧
    StronglySorted descending (col_importance out) ∧
    col_index out = Z.of_nat <$> seq 0 (length out) ∧
    heap w2 !! 0 = heap run.2 !! 0.
Proof.
  intros run.
  apply (@importances_of_evaluate_can_be_plotted constant_sklearn
           train_table [1%float; 2%float; 3%float] test_table
           [4%float; 5%float] empty_world [0%float; 0%float] 0 run.2 15).
  - vm_compute. reflexivity.
  - discriminate.
Defined.

(** ** [plot_feature_importances]: a second call *)

Section Again.
Context {F : Type} `{Scalar F} `{!ScalarOrder F}.
Implicit Types (w : world F) (d rows : DataFrame F) (r : Row F).

Lemma insert_desc_last r rows :
  Forall (λ x, row_descending x r) rows →
  insert_desc r rows = rows ++ [r].
Proof.
  induction 1 as [|x rows Hx _ IH]; simpl; [done|].
  unfold row_descending, descending in Hx. by rewrite Hx, IH.
Qed.

Lemma foldl_insert_desc_sorted_id rows acc :
  StronglySorted row_descending (acc ++ rows) →
  foldl (λ sorted r, insert_desc r sorted) acc rows = acc ++ rows.
Proof.
  revert acc. induction rows as [|r rows IH]; intros acc Hsorted; simpl.
  - by rewrite app_nil_r.
  - rewrite insert_desc_last.
    + rewrite IH; rewrite <- app_assoc; done.
    + apply Forall_forall. intros x Hx.
      eapply StronglySorted_app_1_elem_of; [exact Hsorted|exact Hx|].
      apply elem_of_cons. by left.
Qed.

Lemma filter_all {A} (P : A → Prop) `{∀ x, Decision (P x)} (l : list A) :
  Forall P l → filter P l = l.
Proof.
  induction 1 as [|x l Hx _ IH]; [done|].
  rewrite filter_cons, IH. by case_decide.
Qed.

Lemma filter_none {A} (P : A → Prop) `{∀ x, Decision (P x)} (l : list A) :
  Forall (λ x, ¬ P x) l → filter P l = [].
Proof.
  induction 1 as [|x l Hx _ IH]; [done|].
  rewrite filter_cons, IH. by case_decide.
Qed.

(** Sorting what is sorted changes nothing. *)
Lemma sort_values_importance_desc_idempotent d :
  sort_values_importance_desc (sort_values_importance_desc d)
  = sort_values_importance_desc d.
Proof.
  unfold sort_values_importance_desc at 1 3.
  set (A := sort_desc (filter (λ r, f_isnan (importance r) = false) d)).
  set (B := filter (λ r, f_isnan (importance r) = true) d).
  assert (HA : Forall has_value A).
  { unfold A. rewrite sort_desc_Permutation.
    apply Forall_forall. intros r Hr.
    by apply list_elem_of_filter in Hr as [Hr _]. }
  assert (HB : Forall (λ r, f_isnan (importance r) = true) B).
  { apply Forall_forall. intros r Hr.
    by apply list_elem_of_filter in Hr as [Hr _]. }
  assert (Hsorted : StronglySorted row_descending A).
  { apply (StronglySorted_app_1_l _ A B).
    apply (sort_values_importance_desc_sorted d). }
  unfold sort_values_importance_desc. rewrite !filter_app.
  rewrite (filter_all _ A HA).
  rewrite (filter_none (λ r, f_isnan (importance r) = false) B).
  2: { eapply Forall_impl; [exact HB|]. simpl. congruence. }
  rewrite (filter_none (λ r, f_isnan (importance r) = true) A).
  2: { eapply Forall_impl; [exact HA|]. unfold has_value. simpl.
       congruence. }
  rewrite (filter_all _ B HB), app_nil_r. simpl. f_equal.
  unfold sort_desc. by apply (foldl_insert_desc_sorted_id A []).
Qed.

Lemma built_idempotent d : built (built d) = built d.
Proof.
  rewrite (built_of_pairs (built d) (sort_values_importance_desc d))
    by by rewrite col_feature_built, col_importance_built.
  unfold built, cumulative, normalized, sorted_frame.
  by rewrite sort_values_importance_desc_idempotent.
Qed.

(** X12: calling the function again on the table it returned (any [n], any
    threshold) returns an equal table: the rows are in order already, and
    the two added columns are computed anew from the same 'importance'
    column.  Stated for an 'importance' column without ties, where the order
    after the sort does not depend on the sorting algorithm. *)
Theorem second_call_returns_the_same_table
    df n1 n2 threshold1 threshold2 w d result1 w1 result2 w2 :
  heap w !! df = Some d →
  no_ties (col_importance d) →
  plot_feature_importances df n1 threshold1 w = (inr result1, w1) →
  plot_feature_importances result1 n2 threshold2 w1 = (inr result2, w2) →
  ∃ out,
    heap w1 !! result1 = Some out ∧ heap w2 !! result2 = Some out.
Proof.
  intros Hd _ Hrun1 Hrun2.
  pose proof (plot_feature_importances_returns _ _ _ _ _ _ _ Hd Hrun1)
    as Hout1.
  exists (built d). split; [done|].
  rewrite <- (built_idempotent d).
  by eapply plot_feature_importances_returns.
Qed.

End Again.

Lemma second_call_returns_the_same_table_witness :
  ∃ out,
    heap (plot_feature_importances 0 15 None world_18_9_8).2 !! 2
    = Some out ∧
    heap (plot_feature_importances 2 1 (Some 0.5%float)
            (plot_feature_importances 0 15 None world_18_9_8).2).2 !! 4
    = Some out.
Proof.
  apply (second_call_returns_the_same_table
           0 15 1 None (Some 0.5%float) world_18_9_8 table_18_9_8 2
           (plot_feature_importances 0 15 None world_18_9_8).2 4).
  - reflexivity.
  - intros [|[|[|i]]] [|[|[|j]]] x y Hij Hx Hy; simplify_eq/=;
      try lia; vm_compute; auto.
  - vm_compute. reflexivity.
  - vm_compute. reflexivity.
Defined.

(** ** [plot_feature_importances]: a NaN threshold *)

Lemma nothing_exceeds_nan (c : float) : f_gtb c nan = false.
Proof.
  simpl. rewrite ltb_spec.
  assert (Hnan : Prim2SF nan = S754_nan) by by apply is_nan_Prim2SF.
  by rewrite Hnan.
Qed.

(** X13: in binary64 a NaN threshold is truthy, so it is not taken for a
    missing threshold, and nothing exceeds it: whatever the rows of a table
    with at least one row, the call draws the two plots and raises the
    [ValueError] of [np.min]. *)
Theorem nan_threshold_raises df n (w : world float) d :
  heap w !! df = Some d →
  d ≠ [] →
  ∃ w' bars line,
    plot_feature_importances df n (Some nan) w
    = (inl (ValueError
          "zero-size array to reduction operation minimum which has no identity"),
       w') ∧
    output w' = output w ++ [BarPlot n bars; line].
Proof.
  intros Hd Hrows.
  rewrite (plot_feature_importances_outcome _ _ _ _ _ Hd Hrows). cbv zeta.
  change (f_truthy nan) with true. cbv iota.
  unfold np_where_gt. rewrite where_from_none.
  - simpl. eexists _, _, _. split; [done|]. simpl.
    by rewrite <- app_assoc.
  - apply Forall_forall. intros c _. apply nothing_exceeds_nan.
Qed.

Lemma nan_threshold_raises_witness :
  ∃ w' bars line,
    plot_feature_importances 0 15 (Some nan) world_18_9_8
    = (inl (ValueError
          "zero-size array to reduction operation minimum which has no identity"),
       w') ∧
    output w' = output world_18_9_8 ++ [BarPlot 15 bars; line].
Proof.
  apply (nan_threshold_raises 0 15 world_18_9_8 table_18_9_8).
  - reflexivity.
  - discriminate.
Defined.
